(** * Shallow embedding of the mining engine of rust-btc-solominer (src/main.rs)

    Rust strings are modelled as lists of ASCII bytes ([str]); decoded bytes
    as [Byte.byte]; [u32]/[u64] values as [Z] with their wrap-around written
    out; [anyhow::Result] as the sum type [result]. SHA-256 is kept abstract
    (a section variable): every statement holds for any digest function. *)

From Stdlib Require Import Ascii String List Arith Lia ZArith Bool.
Import ListNotations.
Open Scope list_scope.
Set Warnings "-register-all".

(** ** Results and strings *)

Inductive result (A E : Type) : Type :=
| Ok (a : A)
| Err (e : E).
Arguments Ok {A E} a.
Arguments Err {A E} e.

Definition str := list ascii.

(** A Rust string literal. *)
Definition lit (s : string) : str := list_ascii_of_string s.

Definition zero_char : ascii := "0"%char.

(** ** hex crate: [hex::decode] and [hex::encode] *)

Inductive hex_error :=
| OddLength
| InvalidHexCharacter (c : ascii).

(** Value of one hex digit; the hex crate accepts both cases. *)
Definition hex_val (c : ascii) : option nat :=
  let n := nat_of_ascii c in
  if (48 <=? n) && (n <=? 57) then Some (n - 48)
  else if (97 <=? n) && (n <=? 102) then Some (n - 87)
  else if (65 <=? n) && (n <=? 70) then Some (n - 55)
  else None.

(** [n as u8]. *)
Definition byte_of_nat (n : nat) : Byte.byte := byte_of_ascii (ascii_of_nat n).

Fixpoint decode_pairs (s : str) : result (list Byte.byte) hex_error :=
  match s with
  | c1 :: c2 :: rest =>
      match hex_val c1 with
      | None => Err (InvalidHexCharacter c1)
      | Some hi =>
          match hex_val c2 with
          | None => Err (InvalidHexCharacter c2)
          | Some lo =>
              match decode_pairs rest with
              | Ok bs => Ok (byte_of_nat (16 * hi + lo) :: bs)
              | Err e => Err e
              end
          end
      end
  | _ => Ok []
  end.

(** [hex::decode]: odd length is rejected before any character is read. *)
Definition hex_decode (s : str) : result (list Byte.byte) hex_error :=
  if Nat.odd (length s) then Err OddLength else decode_pairs s.

Definition nibble_char (n : nat) : ascii :=
  if n <? 10 then ascii_of_nat (48 + n) else ascii_of_nat (87 + n).

Definition encode_byte (b : Byte.byte) : str :=
  [nibble_char (Byte.to_nat b / 16); nibble_char (Byte.to_nat b mod 16)].

(** [hex::encode]: lower-case, two characters per byte. *)
Definition hex_encode (bs : list Byte.byte) : str := concat (map encode_byte bs).

(** ** [format!("{:0>w}", s)] and [format!("{:0<w}", s)]

    The width is a minimum: a longer string is kept as it is. *)
Definition pad_left (w : nat) (s : str) : str := repeat zero_char (w - length s) ++ s.
Definition pad_right (w : nat) (s : str) : str := s ++ repeat zero_char (w - length s).

(** ** [calculate_target] *)

Inductive target_error :=
| NbitsLength                     (* "nbits must be 8 hex characters (4 bytes)" *)
| NbitsDecode (e : hex_error)     (* "Failed to decode nbits" *)
| NbitsBytes                      (* "nbits must be 4 bytes" *)
| ExponentTooSmall                (* "Invalid nbits: exponent too small" *)
| ExponentTooLarge.               (* "Invalid nbits: exponent too large" *)

(** The two errors the spec calls [InvalidTarget]. *)
Definition is_invalid_target (e : target_error) : bool :=
  match e with ExponentTooSmall | ExponentTooLarge => true | _ => false end.

(** [v[i] = x] on a [Vec<u8>]; every index written by [calculate_target]
    is guarded to be in range, so the out-of-range case (a panic in Rust)
    is never reached; it leaves the vector unchanged here. *)
Fixpoint vec_set (v : list Byte.byte) (i : nat) (x : Byte.byte) : list Byte.byte :=
  match v, i with
  | [], _ => []
  | _ :: r, 0 => x :: r
  | y :: r, S j => y :: vec_set r j x
  end.

(** [usize] arithmetic: [saturating_sub] is truncated subtraction on [nat]. *)
Definition calculate_target (nbits : str) : result (list Byte.byte) target_error :=
  if negb (length nbits =? 8) then Err NbitsLength else
  match hex_decode nbits with
  | Err e => Err (NbitsDecode e)
  | Ok nbits_bytes =>
      match nbits_bytes with
      | [b0; mantissa_byte1; mantissa_byte2; mantissa_byte3] =>
          let exponent := Byte.to_nat b0 in
          if exponent <? 3 then Err ExponentTooSmall
          else if 32 <? exponent then Err ExponentTooLarge
          else
            let target := repeat Byte.x00 32 in
            let shift_bytes := exponent - 3 in
            if 32 <=? shift_bytes then Ok target
            else
              let start_pos := 32 - shift_bytes - 3 in
              if start_pos <? 32 then
                let t1 := vec_set target start_pos mantissa_byte1 in
                let t2 := if start_pos + 1 <? 32
                          then vec_set t1 (start_pos + 1) mantissa_byte2 else t1 in
                let t3 := if start_pos + 2 <? 32
                          then vec_set t2 (start_pos + 2) mantissa_byte3 else t2 in
                Ok t3
              else Ok target
      | _ => Err NbitsBytes
      end
  end.

(** The spec's description of a decoded target: zero everywhere except the
    mantissa at offset [32 - (e-3) - 3]. *)
Definition target_spec (e : nat) (m1 m2 m3 : Byte.byte) : list Byte.byte :=
  repeat Byte.x00 (32 - (e - 3) - 3) ++ [m1; m2; m3] ++ repeat Byte.x00 (e - 3).

(** ** [hash_meets_target] *)

Definition byte_cmp (a b : Byte.byte) : comparison :=
  Nat.compare (Byte.to_nat a) (Byte.to_nat b).

(** The [for i in 0..32] loop, from index [i] with [k] iterations left. *)
Fixpoint meets_loop (k i : nat) (hash target : list Byte.byte) : bool :=
  match k with
  | 0 => true
  | S k' =>
      match byte_cmp (nth i hash Byte.x00) (nth i target Byte.x00) with
      | Lt => true
      | Gt => false
      | Eq => meets_loop k' (S i) hash target
      end
  end.

Definition hash_meets_target (hash target : list Byte.byte) : bool :=
  if negb (length hash =? 32) || negb (length target =? 32) then false
  else meets_loop 32 0 hash target.

(** Most-significant-byte-first lexicographic [<=], as the spec states it. *)
Fixpoint lex_le (a b : list Byte.byte) : bool :=
  match a, b with
  | [], _ => true
  | _ :: _, [] => false
  | x :: a', y :: b' =>
      (Byte.to_nat x <? Byte.to_nat y)
      || ((Byte.to_nat x =? Byte.to_nat y) && lex_le a' b')
  end.

(** ** [create_block_header] *)

Inductive header_error :=
| InvalidBlockHeaderFormat (e : hex_error).   (* "Invalid block header format: {}" *)

Definition map_err {A E F} (f : E -> F) (r : result A E) : result A F :=
  match r with Ok a => Ok a | Err e => Err (f e) end.

(** The concatenated hex string [header_hex]. *)
Definition header_hex (version prevhash merkle_root nbits ntime nonce : str) : str :=
  pad_left 8 version ++ pad_right 64 prevhash ++ pad_right 64 merkle_root
  ++ pad_left 8 nbits ++ pad_left 8 ntime ++ pad_left 8 nonce.

Definition create_block_header (version prevhash merkle_root nbits ntime nonce : str)
  : result (list Byte.byte) header_error :=
  map_err InvalidBlockHeaderFormat
    (hex_decode (header_hex version prevhash merkle_root nbits ntime nonce)).

(** ** [reverse_hex_bytes]

    The Rust function slices [&hex_str[i..i+2]] by byte offsets; it panics
    when an offset falls inside a multi-byte character. On ASCII input (each
    byte below 128, as the output of [hex::encode] it receives in
    [bitcoin_miner]) every offset is a character boundary, and that is the
    input this model describes. *)

(** [&hex_str[i..i+2]]. *)
Definition slice2 (s : str) (i : nat) : str := firstn 2 (skipn i s).

(** [(0..len).step_by(2)]. *)
Definition step_by2 (len : nat) : list nat := map (fun k => 2 * k) (seq 0 ((len + 1) / 2)).

Definition reverse_hex_bytes (hex_str : str) : str :=
  concat (map (fun i => if i + 1 <? length hex_str then slice2 hex_str i else [])
              (rev (step_by2 (length hex_str)))).

(** The character-level reversal the spec warns against, for comparison. *)
Definition reverse_chars (s : str) : str := rev s.

(** ** Serde JSON values *)

Module Json.

Inductive number :=
| PosInt (n : N)
| NegInt (z : Z)
| Float (repr : str).

Inductive Value :=
| Null
| Bool (b : bool)
| Number (n : number)
| String (s : str)
| Array (l : list Value)
| Object (m : list (str * Value)).

Definition as_str (v : Value) : option str :=
  match v with String s => Some s | _ => None end.
Definition as_bool (v : Value) : option bool :=
  match v with Bool b => Some b | _ => None end.
Definition as_array (v : Value) : option (list Value) :=
  match v with Array l => Some l | _ => None end.
Definition as_u64 (v : Value) : option Z :=
  match v with Number (PosInt n) => Some (Z.of_N n) | _ => None end.

(** [v[i]]: [Null] when out of range or not an array. *)
Definition idx (v : Value) (i : nat) : Value :=
  match v with Array l => nth i l Null | _ => Null end.

Fixpoint assoc (k : str) (m : list (str * Value)) : Value :=
  match m with
  | [] => Null
  | (k', v) :: m' => if list_eq_dec ascii_dec k k' then v else assoc k m'
  end.

(** [v["key"]]: [Null] when absent or not an object. *)
Definition key (v : Value) (k : str) : Value :=
  match v with Object m => assoc k m | _ => Null end.

End Json.

Definition unwrap_or {A} (o : option A) (d : A) : A :=
  match o with Some a => a | None => d end.

(** ** [MiningJob] and its decoding from the [mining.notify] params *)

Record MiningJob := {
  job_id : str;
  prevhash : str;
  coinb1 : str;
  coinb2 : str;
  merkle_branch : list str;
  version : str;
  nbits : str;
  ntime : str;
  clean_jobs : bool
}.

Inductive job_error :=
| InsufficientParameters      (* "Invalid mining.notify message: insufficient parameters" *)
| MissingField (name : string).  (* "Missing job_id", ... *)

(** [x.as_str().context("Missing name")?]. *)
Definition field_str (v : Json.Value) (name : string) : result str job_error :=
  match Json.as_str v with Some s => Ok s | None => Err (MissingField name) end.

Notation "'let?' x ':=' e 'in' k" :=
  (match e with Ok x => k | Err err => Err err end)
  (at level 200, x name, e at level 100, k at level 200).

(** Lines 419-437 of [bitcoin_miner]; the struct literal's fields are
    evaluated in the order they are written. *)
Definition decode_job (params : Json.Value) : result MiningJob job_error :=
  if length (unwrap_or (Json.as_array params) []) <? 9 then Err InsufficientParameters
  else
    let? job_id := field_str (Json.idx params 0) "job_id" in
    let? prevhash := field_str (Json.idx params 1) "prevhash" in
    let? coinb1 := field_str (Json.idx params 2) "coinb1" in
    let? coinb2 := field_str (Json.idx params 3) "coinb2" in
    let merkle_branch :=
      map (fun v => unwrap_or (Json.as_str v) [])
          (unwrap_or (Json.as_array (Json.idx params 4)) []) in
    let? version := field_str (Json.idx params 5) "version" in
    let? nbits := field_str (Json.idx params 6) "nbits" in
    let? ntime := field_str (Json.idx params 7) "ntime" in
    let clean_jobs := unwrap_or (Json.as_bool (Json.idx params 8)) false in
    Ok {| job_id := job_id; prevhash := prevhash; coinb1 := coinb1; coinb2 := coinb2;
          merkle_branch := merkle_branch; version := version; nbits := nbits;
          ntime := ntime; clean_jobs := clean_jobs |}.

(** ** Subscribe result and [extranonce2] *)

Definition EXTRANONCE2_SIZE_BYTES : nat := 4.

Inductive session_error :=
| MissingExtranonce1.   (* "Missing extranonce1 in subscribe response" *)

(** Lines 378-381: [extranonce1] and the declared [_extranonce2_size]. *)
Definition subscribe_result (response_data : Json.Value) : result (str * Z) session_error :=
  let result := Json.key response_data (lit "result") in
  match Json.as_str (Json.idx result 1) with
  | None => Err MissingExtranonce1
  | Some extranonce1 =>
      let extranonce2_size := unwrap_or (Json.as_u64 (Json.idx result 2)) 0%Z in
      Ok (extranonce1, extranonce2_size)
  end.

(** Lines 442-444: [rng.gen::<[u8; 4]>()] is the argument [rnd]. *)
Definition make_extranonce2 (rnd : Byte.byte * Byte.byte * Byte.byte * Byte.byte) : str :=
  let '(b0, b1, b2, b3) := rnd in pad_left 8 (hex_encode [b0; b1; b2; b3]).

(** The session's view after subscribing: [extranonce1], the declared
    extranonce2 size, and the [extranonce2] used for the job. *)
Definition session_extranonces (response_data : Json.Value)
  (rnd : Byte.byte * Byte.byte * Byte.byte * Byte.byte)
  : result (str * Z * str) session_error :=
  match subscribe_result response_data with
  | Err e => Err e
  | Ok (extranonce1, extranonce2_size) =>
      Ok (extranonce1, extranonce2_size, make_extranonce2 rnd)
  end.

(** ** Hashing, merkle root and the nonce search

    [Sha256::digest] is a parameter of the section. *)

Section Mining.

Variable sha256 : list Byte.byte -> list Byte.byte.

Definition double_sha256 (data : list Byte.byte) : list Byte.byte :=
  sha256 (sha256 data).

Inductive mining_error :=
| CoinbaseDecode (e : hex_error)      (* "Failed to decode coinbase hex" *)
| MerkleBranchDecode (e : hex_error)  (* "Failed to decode merkle branch" *)
| HeaderCreate (e : header_error).    (* "Failed to create block header" *)

(** Lines 447-452. *)
Definition coinbase_hash (job : MiningJob) (extranonce1 extranonce2 : str)
  : result (list Byte.byte) mining_error :=
  let coinbase_hex := coinb1 job ++ extranonce1 ++ extranonce2 ++ coinb2 job in
  match hex_decode coinbase_hex with
  | Err e => Err (CoinbaseDecode e)
  | Ok coinbase_bytes => Ok (double_sha256 coinbase_bytes)
  end.

(** Lines 456-463: the loop over [merkle_branch]. *)
Fixpoint merkle_fold (merkle_root : list Byte.byte) (branches : list str)
  : result (list Byte.byte) mining_error :=
  match branches with
  | [] => Ok merkle_root
  | branch :: rest =>
      match hex_decode branch with
      | Err e => Err (MerkleBranchDecode e)
      | Ok branch_bytes => merkle_fold (double_sha256 (merkle_root ++ branch_bytes)) rest
      end
  end.

(** Lines 456-465: [merkle_root_hex]. *)
Definition merkle_root_hex (coinbase_hash_bin : list Byte.byte) (branches : list str)
  : result str mining_error :=
  match merkle_fold coinbase_hash_bin branches with
  | Err e => Err e
  | Ok merkle_root => Ok (reverse_hex_bytes (hex_encode merkle_root))
  end.

Definition HASHES_PER_BATCH : nat := 1000.

(** [u32::wrapping_add]. *)
Definition wrapping_add_u32 (a b : Z) : Z := ((a + b) mod 2 ^ 32)%Z.

(** [format!("{:08x}", n)] for a [u32]. *)
Definition nonce_hex (n : Z) : str :=
  map (fun k => nibble_char (Z.to_nat (Z.land (Z.shiftr n (4 * k)) 15)))
      [7; 6; 5; 4; 3; 2; 1; 0]%Z.

Record Solution := {
  sol_hash : list Byte.byte;
  sol_nonce : str;
  sol_job_id : str;
  sol_extranonce2 : str;
  sol_ntime : str
}.

(** Observable steps of the search: a nonce hashed, a solution submitted
    (the [mining.submit] message), a restart on a new block, or a failed
    header construction. The hash-rate log is advisory and left out. *)
Inductive event :=
| Hashed (nonce : Z)
| Submitted (s : Solution)
| Restarted
| HeaderFailed (e : header_error).

Inductive batch_end :=
| BatchDone (nonce_counter : Z)
| Stop.

Variable job : MiningJob.
Variable extranonce2 : str.
Variable merkle_root_hex_v : str.
Variable target : list Byte.byte.

(** Lines 495-580: [k] iterations of [for _ in 0..HASHES_PER_BATCH]. *)
Fixpoint nonce_batch (k : nat) (nonce_counter : Z) : list event * batch_end :=
  match k with
  | 0 => ([], BatchDone nonce_counter)
  | S k' =>
      let nonce_counter := wrapping_add_u32 nonce_counter 1 in
      let nh := nonce_hex nonce_counter in
      match create_block_header (version job) (prevhash job) merkle_root_hex_v
              (nbits job) (ntime job) nh with
      | Err e => ([HeaderFailed e], Stop)
      | Ok header_bytes =>
          let hash_bytes := double_sha256 header_bytes in
          if hash_meets_target hash_bytes target then
            ([Hashed nonce_counter;
              Submitted {| sol_hash := hash_bytes; sol_nonce := nh;
                           sol_job_id := job_id job; sol_extranonce2 := extranonce2;
                           sol_ntime := ntime job |}], Stop)
          else
            let '(evs, e) := nonce_batch k' nonce_counter in
            (Hashed nonce_counter :: evs, e)
      end
  end.

(** [heights i] is the [current_height] read under the lock at the [i]-th
    batch check (written concurrently by the height watcher); [work_on] is
    the height read when the job started. [fuel] bounds the number of batch
    checks observed. *)
Variable heights : nat -> Z.
Variable work_on : Z.

(** Lines 480-593. *)
Fixpoint search_loop (fuel : nat) (i : nat) (nonce_counter : Z) : list event :=
  match fuel with
  | 0 => []
  | S fuel' =>
      if (work_on <? heights i)%Z then [Restarted]
      else
        let '(evs, e) := nonce_batch HASHES_PER_BATCH nonce_counter in
        match e with
        | BatchDone n => evs ++ search_loop fuel' (S i) n
        | Stop => evs
        end
  end.

(** [let mut nonce_counter: u32 = 0;] then the loop. *)
Definition search (fuel : nat) : list event := search_loop fuel 0 0%Z.

End Mining.

(** ** Shared state and the height watcher *)

Record MiningConfig := {
  address : str;
  current_height : Z;
  quiet_mode : bool
}.

Definition new_config (address : str) (quiet_mode : bool) : MiningConfig :=
  {| address := address; current_height := 0%Z; quiet_mode := quiet_mode |}.

Inductive fetch_error := FetchFailed.

(** [get_current_block_height]: the HTTP response body, or a failure. *)
Definition get_current_block_height (response : result Json.Value fetch_error)
  : result Z fetch_error :=
  match response with
  | Err e => Err e
  | Ok data => Ok (unwrap_or (Json.as_u64 (Json.key data (lit "height"))) 0%Z)
  end.

(** One iteration of [new_block_listener] (lines 601-619). The snapshot of
    [current_height] is taken in a first critical section and the write in a
    second; the watcher is the only writer of [current_height] (the miner only
    reads it), so the state between the two is the same. *)
Definition listener_step (config : MiningConfig) (fetched : result Z fetch_error)
  : MiningConfig :=
  let current_height := current_height config in
  match fetched with
  | Ok network_height =>
      if (current_height <? network_height)%Z then
        {| address := address config; current_height := network_height;
           quiet_mode := quiet_mode config |}
      else config
  | Err _ => config
  end.

Definition run_listener (config : MiningConfig) (obs : list (result Z fetch_error))
  : MiningConfig := fold_left listener_step obs config.

Definition ok_heights (obs : list (result Z fetch_error)) : list Z :=
  flat_map (fun r => match r with Ok h => [h] | Err _ => [] end) obs.

(** ** Observations on search traces *)

(** Whether the header for nonce [n] hashes below the target (a header that
    fails to build does not). *)
Definition nonce_meets (sha256 : list Byte.byte -> list Byte.byte) (job : MiningJob)
  (merkle_root_hex_v : str) (target : list Byte.byte) (n : Z) : bool :=
  match create_block_header (version job) (prevhash job) merkle_root_hex_v
          (nbits job) (ntime job) (nonce_hex n) with
  | Ok header_bytes => hash_meets_target (double_sha256 sha256 header_bytes) target
  | Err _ => false
  end.

Definition is_submitted (ev : event) : bool :=
  match ev with Submitted _ => true | _ => false end.

Definition hashed_nonces (tr : list event) : list Z :=
  flat_map (fun ev => match ev with Hashed n => [n] | _ => [] end) tr.

(** The nonces a counter starting at [c] produces in [m] wrapping increments,
    each taken after the increment, and the counter's value afterwards. *)
Fixpoint nonce_run (c : Z) (m : nat) : list Z :=
  match m with
  | 0 => []
  | S m' => wrapping_add_u32 c 1 :: nonce_run (wrapping_add_u32 c 1) m'
  end.

Fixpoint nonce_after (c : Z) (m : nat) : Z :=
  match m with
  | 0 => c
  | S m' => nonce_after (wrapping_add_u32 c 1) m'
  end.

(** A job with well-formed fields, for concrete runs. *)
Definition example_job : MiningJob :=
  {| job_id := lit "1"; prevhash := repeat zero_char 64; coinb1 := lit "01";
     coinb2 := lit "02"; merkle_branch := []; version := lit "00000001";
     nbits := lit "1d00ffff"; ntime := lit "5f5e1000"; clean_jobs := false |}.

(** The possible ends of a search trace. *)
Inductive terminal (meets : Z -> bool) : list event -> Prop :=
| TOpen : terminal meets []
| TRestarted : terminal meets [Restarted]
| THeaderFailed e : terminal meets [HeaderFailed e]
| TSolved n s : meets n = true -> terminal meets [Hashed n; Submitted s].

(** A trace is a run of non-matching hashed nonces followed by an end. *)
Definition trace_shape (meets : Z -> bool) (tr : list event) : Prop :=
  exists ns tail, tr = map Hashed ns ++ tail
                  /\ Forall (fun n => meets n = false) ns /\ terminal meets tail.

(** The 0-based positions of the mandatory string fields of [mining.notify]. *)
Definition required_positions : list nat := [0; 1; 2; 3; 5; 6; 7].

(** A subscribe response declaring an 8-byte extranonce2. *)
Definition subscribe_response_8 : Json.Value :=
  Json.Object [(lit "id", Json.Number (Json.PosInt 1));
               (lit "result", Json.Array [Json.Null; Json.String (lit "f000000f");
                                          Json.Number (Json.PosInt 8)])].

(** The byte layout of a header built from fields that each decode and fit. *)
Definition header_layout (dv dp dm dnb dnt dno : list Byte.byte) : list Byte.byte :=
  (repeat Byte.x00 (4 - length dv) ++ dv)
  ++ (dp ++ repeat Byte.x00 (32 - length dp))
  ++ (dm ++ repeat Byte.x00 (32 - length dm))
  ++ (repeat Byte.x00 (4 - length dnb) ++ dnb)
  ++ (repeat Byte.x00 (4 - length dnt) ++ dnt)
  ++ (repeat Byte.x00 (4 - length dno) ++ dno).

(** ** The number a big-endian byte buffer denotes *)

Fixpoint be_value (bs : list Byte.byte) : Z :=
  match bs with
  | [] => 0%Z
  | b :: rest => (Z.of_nat (Byte.to_nat b) * 256 ^ Z.of_nat (length rest) + be_value rest)%Z
  end.

(** ** [validate_bitcoin_address] (lines 163-172)

    Here a Rust [&str] is seen through [chars()]: a list of Unicode scalar
    values; [len()] counts its UTF-8 bytes. [char::is_alphanumeric] is
    [is_alphabetic() || is_numeric()], which test the ASCII ranges directly
    and consult the Unicode tables (Alphabetic, N) above [0x7f]; those
    tables are the section variable [unicode_alphanumeric]. *)

Section Validation.

Variable unicode_alphanumeric : nat -> bool.

(** Number of bytes of a scalar value in UTF-8. *)
Definition utf8_len (c : nat) : nat :=
  if c <? 128 then 1 else if c <? 2048 then 2 else if c <? 2 ^ 16 then 3 else 4.

(** [str::len]. *)
Definition str_len (s : list nat) : nat := list_sum (map utf8_len s).

Definition is_alphanumeric (c : nat) : bool :=
  ((97 <=? c) && (c <=? 122)) || ((65 <=? c) && (c <=? 90))
  || ((48 <=? c) && (c <=? 57)) || ((127 <? c) && unicode_alphanumeric c).

(** The closure passed to [all]: ['0'], ['O'], ['I'], ['l'] are excluded. *)
Definition address_char_ok (c : nat) : bool :=
  is_alphanumeric c && negb (c =? 48) && negb (c =? 79) && negb (c =? 73)
  && negb (c =? 108).

Definition validate_bitcoin_address (address : list nat) : bool :=
  if (str_len address <? 26) || (35 <? str_len address) then false
  else forallb address_char_ok address.

End Validation.

(** The Base58 alphabet of Bitcoin addresses, for comparison. *)
Definition base58_alphabet : list nat :=
  map nat_of_ascii (lit "123456789ABCDEFGHJKLMNPQRSTUVWXYZabcdefghijkmnopqrstuvwxyz").

(** The ASCII part of [address_char_ok]. *)
Definition ascii_address_char_ok (c : nat) : bool :=
  (((97 <=? c) && (c <=? 122)) || ((65 <=? c) && (c <=? 90)) || ((48 <=? c) && (c <=? 57)))
  && negb (c =? 48) && negb (c =? 79) && negb (c =? 73) && negb (c =? 108).

(** ** [load_config] (lines 78-139) *)

(** A decimal digit, as [char::to_digit(10)]. *)
Definition digit_val (c : ascii) : option nat :=
  let n := nat_of_ascii c in if (48 <=? n) && (n <=? 57) then Some (n - 48) else None.

(** The digit loop of [from_str_radix]: every character must be a digit and
    every partial value must stay within [max]. *)
Fixpoint parse_digits (max acc : Z) (s : str) : option Z :=
  match s with
  | [] => Some acc
  | c :: rest =>
      match digit_val c with
      | None => None
      | Some d =>
          let acc := (acc * 10 + Z.of_nat d)%Z in
          if (acc <=? max)%Z then parse_digits max acc rest else None
      end
  end.

(** [str::parse] for an unsigned integer type with maximum [max]: empty input
    and a lone sign are rejected, one leading ['+'] is skipped, and a ['-']
    is not a digit. *)
Definition parse_uint (max : Z) (s : str) : option Z :=
  match s with
  | [] => None
  | c :: rest =>
      if Ascii.eqb c "+"%char then
        match rest with [] => None | _ => parse_digits max 0 rest end
      else parse_digits max 0 s
  end.

(** [v.parse::<u32>().ok()]. *)
Definition parse_u32 (s : str) : option Z := parse_uint (2 ^ 32 - 1) s.

Record TelegramConfig := {
  bot_token : str;
  user_id : str
}.

Definition is_empty (s : str) : bool := match s with [] => true | _ => false end.

Definition is_configured (t : TelegramConfig) : bool :=
  negb (is_empty (bot_token t)) && negb (is_empty (user_id t)).

(** What [load_config] reads from a [config.ini] that exists and loads:
    [Ini::get] and [Ini::getuint] of the configparser crate. *)
Record IniFile := {
  ini_get : string -> string -> option str;
  ini_getuint : string -> string -> result (option Z) str
}.

Definition option_bind {A B} (o : option A) (f : A -> option B) : option B :=
  match o with Some a => f a | None => None end.

(** [env] is [std::env::var(name).ok()]; [ini] is [None] when [config.ini]
    is absent or fails to load. *)
Definition load_config (env : string -> option str) (ini : option IniFile)
  : str * bool * option TelegramConfig :=
  let env_address := env "BTC_ADDRESS"%string in
  let env_quiet_mode :=
    option_map (fun v => (v =? 1)%Z) (option_bind (env "QUIET_MODE"%string) parse_u32) in
  let env_telegram_token := env "TELEGRAM_BOT_TOKEN"%string in
  let env_telegram_user_id := env "TELEGRAM_USER_ID"%string in
  let '(address, quiet_mode, telegram_token, telegram_user_id) :=
    match ini with
    | None => ([], false, [], [])
    | Some config =>
        (unwrap_or (ini_get config "miner" "wallet_address") [],
         match ini_getuint config "miner" "quiet_mode" with
         | Ok (Some value) => (value =? 1)%Z
         | _ => false
         end,
         unwrap_or (ini_get config "telegram" "bot_token") [],
         unwrap_or (ini_get config "telegram" "user_id") [])
    end in
  let address := unwrap_or env_address address in
  let quiet_mode := unwrap_or env_quiet_mode quiet_mode in
  let telegram_token := unwrap_or env_telegram_token telegram_token in
  let telegram_user_id := unwrap_or env_telegram_user_id telegram_user_id in
  let telegram :=
    if negb (is_empty telegram_token) && negb (is_empty telegram_user_id) then
      Some {| bot_token := telegram_token; user_id := telegram_user_id |}
    else None in
  (address, quiet_mode, telegram).

(** The [quiet_mode] the file alone gives. *)
Definition file_quiet_mode (ini : option IniFile) : bool :=
  match ini with
  | None => false
  | Some config =>
      match ini_getuint config "miner" "quiet_mode" with
      | Ok (Some value) => (value =? 1)%Z
      | _ => false
      end
  end.

(** * Properties *)

(** ** Target decoding *)

Lemma vec_set_app (l1 l2 : list Byte.byte) (y x : Byte.byte) :
  vec_set (l1 ++ y :: l2) (length l1) x = l1 ++ x :: l2.
Proof. induction l1 as [|z l1 IH]; simpl; [reflexivity | now rewrite IH]. Qed.

Lemma vec_set_at (l1 l2 : list Byte.byte) (y x : Byte.byte) (n : nat) :
  n = length l1 -> vec_set (l1 ++ y :: l2) n x = l1 ++ x :: l2.
Proof. intros ->. apply vec_set_app. Qed.

Lemma repeat_split {A} (a : A) (n m : nat) : repeat a (n + m) = repeat a n ++ repeat a m.
Proof. induction n; simpl; [reflexivity | now rewrite IHn]. Qed.

Lemma target_spec_length e m1 m2 m3 : length (target_spec e m1 m2 m3) = 32 \/ 32 < e.
Proof.
  unfold target_spec. rewrite !length_app, !repeat_length. cbn [length].
  destruct (Nat.le_gt_cases e 32); [left; lia | right; lia].
Qed.

(** Placing the three mantissa bytes into the zero buffer at [32 - e]. *)
Lemma place_mantissa (e : nat) (m1 m2 m3 : Byte.byte) :
  3 <= e <= 32 ->
  let t1 := vec_set (repeat Byte.x00 32) (32 - (e - 3) - 3) m1 in
  let t2 := vec_set t1 (32 - (e - 3) - 3 + 1) m2 in
  vec_set t2 (32 - (e - 3) - 3 + 2) m3 = target_spec e m1 m2 m3.
Proof.
  intros He t1 t2. subst t1 t2.
  (* one case per admissible exponent; each evaluates *)
  do 33 (destruct e as [|e]; [try (exfalso; lia); reflexivity |]).
  exfalso; lia.
Qed.

(** C1: for an 8-character nbits decoding to [e; m1; m2; m3], decoding fails
    with an InvalidTarget error (exponent too small or too large) exactly when
    [e < 3] or [e > 32]; otherwise it returns the 32-byte buffer that is zero
    except [m1 m2 m3] at offset [32 - (e-3) - 3]. *)
Lemma calculate_target_cases (nbits : str) (e m1 m2 m3 : Byte.byte) :
  length nbits = 8 ->
  hex_decode nbits = Ok [e; m1; m2; m3] ->
  ((Byte.to_nat e < 3 \/ 32 < Byte.to_nat e) ->
     exists err, calculate_target nbits = Err err /\ is_invalid_target err = true) /\
  (3 <= Byte.to_nat e <= 32 ->
     calculate_target nbits = Ok (target_spec (Byte.to_nat e) m1 m2 m3)
     /\ length (target_spec (Byte.to_nat e) m1 m2 m3) = 32).
Proof.
  intros Hlen Hdec. unfold calculate_target. rewrite Hlen, Hdec. cbn [negb Nat.eqb].
  split.
  - intros [Hlt | Hgt].
    + apply Nat.ltb_lt in Hlt. rewrite Hlt. eexists; split; reflexivity.
    + destruct (Byte.to_nat e <? 3) eqn:E3.
      * eexists; split; reflexivity.
      * apply Nat.ltb_lt in Hgt. rewrite Hgt. eexists; split; reflexivity.
  - intros He.
    assert (E3 : (Byte.to_nat e <? 3) = false) by (apply Nat.ltb_ge; lia).
    assert (E32 : (32 <? Byte.to_nat e) = false) by (apply Nat.ltb_ge; lia).
    assert (Es : (32 <=? Byte.to_nat e - 3) = false) by (apply Nat.leb_gt; lia).
    assert (Ep0 : (32 - (Byte.to_nat e - 3) - 3 <? 32) = true) by (apply Nat.ltb_lt; lia).
    assert (Ep1 : (32 - (Byte.to_nat e - 3) - 3 + 1 <? 32) = true) by (apply Nat.ltb_lt; lia).
    assert (Ep2 : (32 - (Byte.to_nat e - 3) - 3 + 2 <? 32) = true) by (apply Nat.ltb_lt; lia).
    rewrite E3, E32, Es, Ep0, Ep1, Ep2.
    split.
    + f_equal. apply place_mantissa. exact He.
    + destruct (target_spec_length (Byte.to_nat e) m1 m2 m3); [assumption | lia].
Qed.

(** ** Hash versus target *)

Lemma meets_loop_shift (k i : nat) (x y : Byte.byte) (a b : list Byte.byte) :
  meets_loop k (S i) (x :: a) (y :: b) = meets_loop k i a b.
Proof.
  revert i. induction k as [|k IH]; intros i; simpl; [reflexivity|].
  destruct (byte_cmp (nth i a Byte.x00) (nth i b Byte.x00)); try reflexivity.
  apply IH.
Qed.

Lemma meets_loop_lex (a b : list Byte.byte) :
  length a = length b -> meets_loop (length a) 0 a b = lex_le a b.
Proof.
  revert b. induction a as [|x a IH]; intros [|y b] Hl; simpl in *; try discriminate;
    [reflexivity|].
  injection Hl as Hl. unfold byte_cmp.
  destruct (Nat.compare_spec (Byte.to_nat x) (Byte.to_nat y)) as [E|E|E].
  - rewrite E, Nat.ltb_irrefl, Nat.eqb_refl. simpl.
    rewrite meets_loop_shift. apply IH. exact Hl.
  - apply Nat.ltb_lt in E. now rewrite E.
  - assert (E1 : (Byte.to_nat x <? Byte.to_nat y) = false) by (apply Nat.ltb_ge; lia).
    assert (E2 : (Byte.to_nat x =? Byte.to_nat y) = false) by (apply Nat.eqb_neq; lia).
    now rewrite E1, E2.
Qed.

(** C2: on two 32-byte values, [hash_meets_target] is true exactly when
    [hash <= target] in most-significant-byte-first lexicographic order
    (equality accepted); all-zero meets all-zero, and a hash starting with
    0x01 does not meet the all-zero target. *)
Lemma hash_meets_target_lex :
  (forall hash target : list Byte.byte,
     length hash = 32 -> length target = 32 ->
     (hash_meets_target hash target = true <-> lex_le hash target = true)) /\
  hash_meets_target (repeat Byte.x00 32) (repeat Byte.x00 32) = true /\
  (forall rest, hash_meets_target (Byte.x01 :: rest) (repeat Byte.x00 32) = false).
Proof.
  split; [|split].
  - intros hash target Hh Ht. unfold hash_meets_target.
    rewrite Hh, Ht. simpl negb. simpl orb.
    rewrite <- Hh at 1. rewrite meets_loop_lex by congruence. reflexivity.
  - reflexivity.
  - intros rest. unfold hash_meets_target.
    destruct (negb (length (Byte.x01 :: rest) =? 32)); reflexivity.
Qed.

(** C10: whenever the hash or the target is not exactly 32 bytes long, the
    comparison returns false. *)
Lemma hash_meets_target_bad_length (hash target : list Byte.byte) :
  length hash <> 32 \/ length target <> 32 -> hash_meets_target hash target = false.
Proof.
  intros H. unfold hash_meets_target.
  destruct H as [H|H]; apply Nat.eqb_neq in H; rewrite H; simpl;
    [reflexivity | now rewrite orb_true_r].
Qed.

(** ** Hex decoding of concatenations *)

Lemma decode_pairs_app (a b : str) (da db : list Byte.byte) :
  Nat.even (length a) = true ->
  decode_pairs a = Ok da -> decode_pairs b = Ok db -> decode_pairs (a ++ b) = Ok (da ++ db).
Proof.
  intros Hev. revert da. remember (length a) as n eqn:Hn. revert a Hn Hev.
  induction n as [n IH] using lt_wf_ind. intros a Hn Hev da Ha Hb.
  destruct a as [|c1 [|c2 a]].
  - simpl in Ha. injection Ha as <-. exact Hb.
  - subst n. discriminate Hev.
  - simpl in Ha |- *.
    destruct (hex_val c1) as [hi|]; [|discriminate].
    destruct (hex_val c2) as [lo|]; [|discriminate].
    destruct (decode_pairs a) as [da'|e] eqn:Ea; [|discriminate].
    injection Ha as <-.
    rewrite (IH (length a)) with (da := da'); try reflexivity; try assumption.
    + subst n; simpl; lia.
    + subst n. simpl in Hev. exact Hev.
Qed.

Lemma decode_pairs_length (s : str) (bs : list Byte.byte) :
  decode_pairs s = Ok bs -> length s = 2 * length bs \/ Nat.odd (length s) = true.
Proof.
  revert bs. remember (length s) as n eqn:Hn. revert s Hn.
  induction n as [n IH] using lt_wf_ind. intros s Hn bs Hs.
  destruct s as [|c1 [|c2 s]].
  - simpl in Hs. injection Hs as <-. left. subst. reflexivity.
  - right. subst. reflexivity.
  - simpl in Hs.
    destruct (hex_val c1) as [hi|]; [|discriminate].
    destruct (hex_val c2) as [lo|]; [|discriminate].
    destruct (decode_pairs s) as [bs'|e] eqn:Es; [|discriminate].
    injection Hs as <-.
    destruct (IH (length s)) with (s := s) (bs := bs') as [H|H]; try reflexivity;
      try assumption.
    + subst; simpl; lia.
    + left. subst n. simpl. lia.
    + right. subst n. simpl. exact H.
Qed.

Lemma hex_decode_length (s : str) (bs : list Byte.byte) :
  hex_decode s = Ok bs -> length s = 2 * length bs.
Proof.
  unfold hex_decode. destruct (Nat.odd (length s)) eqn:Eo; [discriminate|].
  intros H. destruct (decode_pairs_length s bs H) as [H'|H']; [exact H'|congruence].
Qed.

Lemma hex_decode_app (a b : str) (da db : list Byte.byte) :
  hex_decode a = Ok da -> hex_decode b = Ok db -> hex_decode (a ++ b) = Ok (da ++ db).
Proof.
  intros Ha Hb.
  pose proof (hex_decode_length a da Ha) as La.
  pose proof (hex_decode_length b db Hb) as Lb.
  unfold hex_decode in *.
  rewrite length_app, La, Lb.
  replace (2 * length da + 2 * length db) with (2 * (length da + length db)) by lia.
  rewrite Nat.odd_mul, Nat.odd_2. simpl.
  rewrite La, Nat.odd_mul, Nat.odd_2 in Ha. simpl in Ha.
  rewrite Lb, Nat.odd_mul, Nat.odd_2 in Hb. simpl in Hb.
  apply decode_pairs_app; try assumption.
  rewrite La, Nat.even_mul. reflexivity.
Qed.

Lemma decode_pairs_zeros (s : str) :
  decode_pairs (zero_char :: zero_char :: s)
  = match decode_pairs s with Ok bs => Ok (Byte.x00 :: bs) | Err e => Err e end.
Proof. reflexivity. Qed.

Lemma hex_decode_zeros (k : nat) :
  hex_decode (repeat zero_char (2 * k)) = Ok (repeat Byte.x00 k).
Proof.
  unfold hex_decode. rewrite repeat_length, Nat.odd_mul, Nat.odd_2. simpl andb.
  cbv iota.
  induction k as [|k IH]; [reflexivity|].
  replace (2 * S k) with (S (S (2 * k))) by lia.
  cbn [repeat]. rewrite decode_pairs_zeros, IH. reflexivity.
Qed.

(** ** Block header encoding *)

Lemma pad_left_length (w : nat) (s : str) : length (pad_left w s) = Nat.max w (length s).
Proof. unfold pad_left. rewrite length_app, repeat_length. lia. Qed.

Lemma pad_right_length (w : nat) (s : str) : length (pad_right w s) = Nat.max w (length s).
Proof. unfold pad_right. rewrite length_app, repeat_length. lia. Qed.

Lemma pad_left_decode (w k : nat) (s : str) (ds : list Byte.byte) :
  w = 2 * k -> hex_decode s = Ok ds -> length s <= w ->
  hex_decode (pad_left w s) = Ok (repeat Byte.x00 (k - length ds) ++ ds).
Proof.
  intros -> Hs Hl. pose proof (hex_decode_length s ds Hs) as L.
  unfold pad_left. replace (2 * k - length s) with (2 * (k - length ds)) by lia.
  apply hex_decode_app; [apply hex_decode_zeros | exact Hs].
Qed.

Lemma pad_right_decode (w k : nat) (s : str) (ds : list Byte.byte) :
  w = 2 * k -> hex_decode s = Ok ds -> length s <= w ->
  hex_decode (pad_right w s) = Ok (ds ++ repeat Byte.x00 (k - length ds)).
Proof.
  intros -> Hs Hl. pose proof (hex_decode_length s ds Hs) as L.
  unfold pad_right. replace (2 * k - length s) with (2 * (k - length ds)) by lia.
  apply hex_decode_app; [exact Hs | apply hex_decode_zeros].
Qed.

(** C3: every six inputs that each decode cleanly give an 80-byte header,
    as the docstring of [create_block_header] ("exactly 80 bytes") and its
    comment ("160 hex characters = 80 bytes") state. The code does not: a
    10-character version "0000000001" is kept whole by the [{:0>8}] padding
    (a minimum width, not a truncation) and the header is 81 bytes long. *)
Lemma create_block_header_not_always_80 :
  ~ (forall v p m nb nt no dv dp dm dnb dnt dno : _,
       hex_decode v = Ok dv -> hex_decode p = Ok dp -> hex_decode m = Ok dm ->
       hex_decode nb = Ok dnb -> hex_decode nt = Ok dnt -> hex_decode no = Ok dno ->
       exists bs, create_block_header v p m nb nt no = Ok bs /\ length bs = 80).
Proof.
  intros H.
  destruct (H (lit "0000000001") [] [] (lit "1d00ffff") (lit "00000000") (lit "00000001")
              _ _ _ _ _ _ eq_refl eq_refl eq_refl eq_refl eq_refl eq_refl)
    as [bs [Hc Hl]].
  vm_compute in Hc. injection Hc as <-. discriminate Hl.
Qed.

(** What [create_block_header] computes: the header is the hex decoding of the six fields, padded
    (version, nbits, ntime, nonce on the left to at least 8 characters;
    prevhash, merkle_root on the right to at least 64) and concatenated in
    that order; it fails exactly when that concatenation does not decode; its
    length is half the padded length, longer inputs being kept whole; for
    inputs that each decode and fit their width it is exactly 80 bytes. *)
Lemma create_block_header_layout (v p m nb nt no : str) :
  (forall bs, create_block_header v p m nb nt no = Ok bs
              <-> hex_decode (header_hex v p m nb nt no) = Ok bs) /\
  ((forall bs, create_block_header v p m nb nt no <> Ok bs)
   <-> (forall bs, hex_decode (header_hex v p m nb nt no) <> Ok bs)) /\
  (forall bs, create_block_header v p m nb nt no = Ok bs ->
     2 * length bs = Nat.max 8 (length v) + Nat.max 64 (length p) + Nat.max 64 (length m)
                     + Nat.max 8 (length nb) + Nat.max 8 (length nt) + Nat.max 8 (length no)) /\
  (forall dv dp dm dnb dnt dno,
     hex_decode v = Ok dv -> hex_decode p = Ok dp -> hex_decode m = Ok dm ->
     hex_decode nb = Ok dnb -> hex_decode nt = Ok dnt -> hex_decode no = Ok dno ->
     length v <= 8 -> length p <= 64 -> length m <= 64 ->
     length nb <= 8 -> length nt <= 8 -> length no <= 8 ->
     create_block_header v p m nb nt no = Ok (header_layout dv dp dm dnb dnt dno) /\
     length (header_layout dv dp dm dnb dnt dno) = 80).
Proof.
  assert (Hok : forall bs, create_block_header v p m nb nt no = Ok bs
                           <-> hex_decode (header_hex v p m nb nt no) = Ok bs).
  { intros bs. unfold create_block_header, map_err.
    destruct (hex_decode (header_hex v p m nb nt no)); split; congruence. }
  split; [exact Hok|]. split; [|split].
  - split; intros H bs E; apply (H bs), Hok, E.
  - intros bs Hc. apply Hok, hex_decode_length in Hc.
    unfold header_hex in Hc. rewrite !length_app, !pad_left_length, !pad_right_length in Hc.
    lia.
  - intros dv dp dm dnb dnt dno Hv Hp Hm Hnb Hnt Hno Lv Lp Lm Lnb Lnt Lno.
    pose proof (hex_decode_length _ _ Hv). pose proof (hex_decode_length _ _ Hp).
    pose proof (hex_decode_length _ _ Hm). pose proof (hex_decode_length _ _ Hnb).
    pose proof (hex_decode_length _ _ Hnt). pose proof (hex_decode_length _ _ Hno).
    split.
    + apply Hok. unfold header_hex, header_layout.
      apply hex_decode_app; [apply (pad_left_decode 8 4); [reflexivity | assumption | lia] |].
      apply hex_decode_app; [apply (pad_right_decode 64 32); [reflexivity | assumption | lia] |].
      apply hex_decode_app; [apply (pad_right_decode 64 32); [reflexivity | assumption | lia] |].
      apply hex_decode_app; [apply (pad_left_decode 8 4); [reflexivity | assumption | lia] |].
      apply hex_decode_app; apply (pad_left_decode 8 4); reflexivity || assumption || lia.
    + unfold header_layout. rewrite !length_app, !repeat_length. lia.
Qed.

(** ** Byte-group reversal and the merkle fold *)

Lemma map_nth_seq0 {A} (l : list A) (d : A) :
  map (fun k => nth k l d) (seq 0 (length l)) = l.
Proof.
  induction l as [|a l IH]; [reflexivity|].
  simpl length. rewrite <- cons_seq, <- seq_shift. cbn [map]. rewrite map_map.
  simpl nth. f_equal. exact IH.
Qed.

Lemma concat_pairs_length (ps : list str) :
  Forall (fun p => length p = 2) ps -> length (concat ps) = 2 * length ps.
Proof.
  induction 1 as [|p ps Hp _ IH]; [reflexivity|].
  simpl. rewrite length_app, Hp, IH. lia.
Qed.

Lemma slice2_concat (ps : list str) (k : nat) :
  Forall (fun p => length p = 2) ps -> slice2 (concat ps) (2 * k) = nth k ps [].
Proof.
  intros H. revert k. induction H as [|p ps Hp _ IH]; intros k.
  - unfold slice2. simpl. rewrite skipn_nil. destruct k; reflexivity.
  - destruct k as [|k].
    + unfold slice2. replace (2 * 0) with 0 by lia. cbn [skipn concat nth].
      rewrite firstn_app, Hp, Nat.sub_diag, firstn_O, app_nil_r.
      apply firstn_all2. lia.
    + unfold slice2 in *. simpl concat. simpl nth.
      replace (2 * S k) with (length p + 2 * k) by lia.
      rewrite skipn_app, skipn_all2 by lia. rewrite app_nil_l.
      replace (length p + 2 * k - length p) with (2 * k) by lia. apply IH.
Qed.

(** [reverse_hex_bytes] reverses the order of 2-character groups. *)
Lemma reverse_hex_bytes_groups (ps : list str) :
  Forall (fun p => length p = 2) ps -> reverse_hex_bytes (concat ps) = concat (rev ps).
Proof.
  intros H. unfold reverse_hex_bytes.
  rewrite (concat_pairs_length ps H).
  unfold step_by2.
  replace ((2 * length ps + 1) / 2) with (length ps).
  2:{ apply Nat.div_unique with (r := 1); lia. }
  rewrite map_rev, map_map. f_equal. f_equal.
  rewrite <- (map_nth_seq0 ps []) at 2.
  apply map_ext_in. intros k Hk. apply in_seq in Hk.
  replace (2 * k + 1 <? 2 * length ps) with true by (symmetry; apply Nat.ltb_lt; lia).
  apply slice2_concat. exact H.
Qed.

Lemma encode_byte_length (b : Byte.byte) : length (encode_byte b) = 2.
Proof. reflexivity. Qed.

Lemma reverse_hex_encode (bs : list Byte.byte) :
  reverse_hex_bytes (hex_encode bs) = hex_encode (rev bs).
Proof.
  unfold hex_encode. rewrite reverse_hex_bytes_groups.
  - rewrite map_rev. reflexivity.
  - apply Forall_forall. intros p Hp. apply in_map_iff in Hp.
    destruct Hp as [b [<- _]]. apply encode_byte_length.
Qed.

Lemma merkle_fold_decoded (sha256 : list Byte.byte -> list Byte.byte)
  (branches : list str) (ds : list (list Byte.byte)) :
  Forall2 (fun b d => hex_decode b = Ok d) branches ds ->
  forall acc, merkle_fold sha256 acc branches
              = Ok (fold_left (fun a d => double_sha256 sha256 (a ++ d)) ds acc).
Proof.
  induction 1 as [|b d branches ds Hb _ IH]; intros acc; [reflexivity|].
  simpl. rewrite Hb. apply IH.
Qed.

(** C4: the merkle accumulator starts at the coinbase hash and folds each
    branch entry in order as [DoubleHash(acc || entry)]; an empty branch list
    leaves the coinbase hash; the result is reversed by whole 2-character
    byte groups (not character by character) to give [merkle_root_hex]. *)
Lemma merkle_root_construction :
  (forall sha256 coinbase_hash_bin branches ds,
     Forall2 (fun b d => hex_decode b = Ok d) branches ds ->
     merkle_fold sha256 coinbase_hash_bin branches
       = Ok (fold_left (fun acc d => double_sha256 sha256 (acc ++ d)) ds coinbase_hash_bin)
     /\ merkle_root_hex sha256 coinbase_hash_bin branches
       = Ok (reverse_hex_bytes (hex_encode
               (fold_left (fun acc d => double_sha256 sha256 (acc ++ d)) ds
                  coinbase_hash_bin)))) /\
  (forall sha256 coinbase_hash_bin,
     merkle_fold sha256 coinbase_hash_bin [] = Ok coinbase_hash_bin) /\
  (forall ps, Forall (fun p => length p = 2) ps ->
     reverse_hex_bytes (concat ps) = concat (rev ps)) /\
  (forall bs, reverse_hex_bytes (hex_encode bs) = hex_encode (rev bs)) /\
  reverse_hex_bytes (lit "0a0b") = lit "0b0a" /\ reverse_chars (lit "0a0b") = lit "b0a0".
Proof.
  split; [|split; [|split; [|split]]].
  - intros sha256 cb branches ds H.
    pose proof (merkle_fold_decoded sha256 branches ds H cb) as E.
    split; [exact E|]. unfold merkle_root_hex. rewrite E. reflexivity.
  - reflexivity.
  - exact reverse_hex_bytes_groups.
  - exact reverse_hex_encode.
  - split; reflexivity.
Qed.

(** ** The nonce search *)

Section SearchProofs.

Variable sha256 : list Byte.byte -> list Byte.byte.
Variable job : MiningJob.
Variable extranonce2 : str.
Variable mrh : str.
Variable target : list Byte.byte.
Variable heights : nat -> Z.
Variable work_on : Z.

Let meets := nonce_meets sha256 job mrh target.

Lemma nonce_batch_shape (k : nat) (c : Z) :
  let '(evs, e) := nonce_batch sha256 job extranonce2 mrh target k c in
  exists ns tail, evs = map Hashed ns ++ tail /\ Forall (fun n => meets n = false) ns
                  /\ terminal meets tail
                  /\ (forall c', e = BatchDone c' -> tail = []).
Proof.
  revert c. induction k as [|k IH]; intros c; simpl.
  - exists [], []. repeat split; constructor.
  - destruct (create_block_header (version job) (prevhash job) mrh (nbits job) (ntime job)
                (nonce_hex (wrapping_add_u32 c 1))) as [hdr|err] eqn:Eh.
    + destruct (hash_meets_target (double_sha256 sha256 hdr) target) eqn:Em.
      * eexists [], [Hashed (wrapping_add_u32 c 1); Submitted _]. repeat split.
        -- constructor.
        -- constructor. unfold meets, nonce_meets. rewrite Eh. exact Em.
        -- discriminate.
      * specialize (IH (wrapping_add_u32 c 1)).
        destruct (nonce_batch sha256 job extranonce2 mrh target k (wrapping_add_u32 c 1))
          as [evs e].
        destruct IH as [ns [tail [-> [Hns [Ht Hd]]]]].
        exists (wrapping_add_u32 c 1 :: ns), tail. repeat split; try assumption.
        constructor; [|exact Hns]. unfold meets, nonce_meets. rewrite Eh. exact Em.
    + exists [], [HeaderFailed err]. repeat split; [constructor | constructor | discriminate].
Qed.

Lemma search_loop_shape (fuel i : nat) (c : Z) :
  trace_shape meets (search_loop sha256 job extranonce2 mrh target heights work_on fuel i c).
Proof.
  revert i c. induction fuel as [|fuel IH]; intros i c; cbn [search_loop].
  - exists [], []. repeat split; constructor.
  - destruct (work_on <? heights i)%Z.
    + exists [], [Restarted]. repeat split; constructor.
    + pose proof (nonce_batch_shape HASHES_PER_BATCH c) as B.
      destruct (nonce_batch sha256 job extranonce2 mrh target HASHES_PER_BATCH c)
        as [evs e].
      destruct B as [ns [tail [-> [Hns [Ht Hd]]]]].
      destruct e as [c'|].
      * rewrite (Hd c' eq_refl), app_nil_r.
        destruct (IH (S i) c') as [ns' [tail' [E [Hns' Ht']]]].
        rewrite E. exists (ns ++ ns'), tail'. split; [|split].
        -- rewrite map_app, app_assoc. reflexivity.
        -- apply Forall_app; split; assumption.
        -- exact Ht'.
      * exists ns, tail. repeat split; assumption.
Qed.

Lemma hashed_prefix (ns : list Z) (tail pre post : list event) (x : event) :
  Forall (fun n => meets n = false) ns ->
  map Hashed ns ++ tail = pre ++ x :: post ->
  (exists n, x = Hashed n /\ meets n = false) \/ exists pre', tail = pre' ++ x :: post.
Proof.
  intros Hns. revert pre. induction Hns as [|n ns Hn _ IH]; intros pre E.
  - right. exists pre. exact E.
  - destruct pre as [|y pre]; simpl in E; injection E as E1 E2.
    + left. exists n. split; [symmetry; exact E1 | exact Hn].
    + apply (IH pre E2).
Qed.

End SearchProofs.

Lemma filter_submitted_hashed (ns : list Z) : filter is_submitted (map Hashed ns) = [].
Proof. induction ns as [|n ns IH]; [reflexivity | exact IH]. Qed.

(** C5: within the search for one job at most one solution is submitted; the
    submission is the last step of the search; and the first hashed nonce
    that meets the target is immediately followed by its submission and
    nothing else. *)
Lemma search_at_most_one_solution (sha256 : list Byte.byte -> list Byte.byte)
  (job : MiningJob) (extranonce2 mrh : str) (target : list Byte.byte)
  (heights : nat -> Z) (work_on : Z) (fuel : nat) :
  let tr := search sha256 job extranonce2 mrh target heights work_on fuel in
  length (filter is_submitted tr) <= 1 /\
  (forall pre s post, tr = pre ++ Submitted s :: post -> post = []) /\
  (forall pre n post, tr = pre ++ Hashed n :: post ->
     nonce_meets sha256 job mrh target n = true -> exists s, post = [Submitted s]).
Proof.
  intros tr.
  destruct (search_loop_shape sha256 job extranonce2 mrh target heights work_on fuel 0 0%Z)
    as [ns [tail [E [Hns Ht]]]].
  fold (search sha256 job extranonce2 mrh target heights work_on fuel) in E.
  fold tr in E. rewrite E.
  split; [|split].
  - rewrite filter_app, filter_submitted_hashed. simpl.
    destruct Ht; simpl; lia.
  - intros pre s post H.
    destruct (hashed_prefix _ _ _ _ ns tail pre post (Submitted s) Hns H)
      as [[n [Hx _]] | [pre' Ht']]; [discriminate|].
    destruct Ht as [| | e | n0 s0 Hm];
      destruct pre' as [|y [|y' pre']]; simpl in Ht'; inversion Ht'; try reflexivity;
      destruct pre'; discriminate.
  - intros pre n post H Hm.
    destruct (hashed_prefix _ _ _ _ ns tail pre post (Hashed n) Hns H)
      as [[n' [Hx Hf]] | [pre' Ht']].
    + injection Hx as <-. congruence.
    + destruct Ht as [| | e | n0 s0 Hm0];
        destruct pre' as [|y [|y' pre']]; simpl in Ht'; inversion Ht'; subst;
        try (destruct pre'; discriminate).
      exists s0. reflexivity.
Qed.

(** ** Nonce order *)

Lemma nonce_run_app (c : Z) (a b : nat) :
  nonce_run c (a + b) = nonce_run c a ++ nonce_run (nonce_after c a) b.
Proof.
  revert c. induction a as [|a IH]; intros c; [reflexivity|].
  simpl. f_equal. apply IH.
Qed.

Lemma nonce_batch_nonces (sha256 : list Byte.byte -> list Byte.byte) (job : MiningJob)
  (extranonce2 mrh : str) (target : list Byte.byte) (k : nat) (c : Z) :
  let '(evs, e) := nonce_batch sha256 job extranonce2 mrh target k c in
  exists m, hashed_nonces evs = nonce_run c m
            /\ (forall c', e = BatchDone c' -> m = k /\ c' = nonce_after c k).
Proof.
  revert c. induction k as [|k IH]; intros c; simpl.
  - exists 0. split; [reflexivity|]. intros c' E. injection E as <-. split; reflexivity.
  - destruct (create_block_header (version job) (prevhash job) mrh (nbits job) (ntime job)
                (nonce_hex (wrapping_add_u32 c 1))) as [hdr|err].
    + destruct (hash_meets_target (double_sha256 sha256 hdr) target).
      * exists 1. split; [reflexivity | discriminate].
      * specialize (IH (wrapping_add_u32 c 1)).
        destruct (nonce_batch sha256 job extranonce2 mrh target k (wrapping_add_u32 c 1))
          as [evs e].
        destruct IH as [m [Hm He]].
        exists (S m). split.
        -- simpl. f_equal. exact Hm.
        -- intros c' E. destruct (He c' E) as [-> ->]. split; reflexivity.
    + exists 0. split; [reflexivity | discriminate].
Qed.

Lemma search_loop_nonces (sha256 : list Byte.byte -> list Byte.byte) (job : MiningJob)
  (extranonce2 mrh : str) (target : list Byte.byte) (heights : nat -> Z) (work_on : Z)
  (fuel i : nat) (c : Z) :
  exists m, hashed_nonces (search_loop sha256 job extranonce2 mrh target heights work_on
                             fuel i c) = nonce_run c m.
Proof.
  revert i c. induction fuel as [|fuel IH]; intros i c; cbn [search_loop].
  - exists 0. reflexivity.
  - destruct (work_on <? heights i)%Z.
    + exists 0. reflexivity.
    + pose proof (nonce_batch_nonces sha256 job extranonce2 mrh target HASHES_PER_BATCH c)
        as B.
      destruct (nonce_batch sha256 job extranonce2 mrh target HASHES_PER_BATCH c)
        as [evs e].
      destruct B as [m [Hm He]].
      destruct e as [c'|].
      * destruct (He c' eq_refl) as [-> ->].
        destruct (IH (S i) (nonce_after c HASHES_PER_BATCH)) as [m' Hm'].
        exists (HASHES_PER_BATCH + m').
        unfold hashed_nonces in *. rewrite flat_map_app, Hm, Hm', nonce_run_app.
        reflexivity.
      * exists m. exact Hm.
Qed.

Lemma nonce_run_nth (c : Z) (m k : nat) :
  k < m -> nth k (nonce_run c m) 0%Z = ((c + 1 + Z.of_nat k) mod 2 ^ 32)%Z.
Proof.
  revert c k. induction m as [|m IH]; intros c k Hk; [lia|].
  destruct k as [|k]; simpl nth.
  - unfold wrapping_add_u32. f_equal. lia.
  - rewrite IH by lia. unfold wrapping_add_u32.
    rewrite <- Z.add_assoc, Zplus_mod_idemp_l. f_equal. lia.
Qed.

(** C7 (as stated): the first nonce hashed for a job is 0. It is 1: the
    counter starts at 0 but is incremented before its first use. *)
Lemma first_nonce_is_not_zero :
  hd_error (hashed_nonces
              (search (fun _ => repeat Byte.xff 32) example_job (lit "00000000")
                 (repeat zero_char 64) (repeat Byte.x00 32) (fun _ => 0%Z) 0%Z 1))
  = Some 1%Z
  /\ hd_error (hashed_nonces
                 (search (fun _ => repeat Byte.xff 32) example_job (lit "00000000")
                    (repeat zero_char 64) (repeat Byte.x00 32) (fun _ => 0%Z) 0%Z 1))
     <> Some 0%Z.
Proof.
  assert (E : hd_error (hashed_nonces
              (search (fun _ => repeat Byte.xff 32) example_job (lit "00000000")
                 (repeat zero_char 64) (repeat Byte.x00 32) (fun _ => 0%Z) 0%Z 1))
              = Some 1%Z) by (vm_compute; reflexivity).
  split; [exact E | rewrite E; discriminate].
Qed.

(** C7 (amended): the counter starts at 0 and is incremented with [u32]
    wrap-around before each use, so the nonces hashed for a job are, in
    order, the successive wrapping increments of 0: the [k]-th one is
    [(k + 1) mod 2^32], the first is 1, nonce 0 comes after 0xffffffff,
    and after 0xffffffff the next nonce is 0. *)
Lemma search_nonce_order (sha256 : list Byte.byte -> list Byte.byte) (job : MiningJob)
  (extranonce2 mrh : str) (target : list Byte.byte) (heights : nat -> Z) (work_on : Z)
  (fuel : nat) :
  let hs := hashed_nonces (search sha256 job extranonce2 mrh target heights work_on fuel) in
  hs = nonce_run 0 (length hs) /\
  (forall k, k < length hs -> nth k hs 0%Z = ((Z.of_nat k + 1) mod 2 ^ 32)%Z) /\
  wrapping_add_u32 0xffffffff 1 = 0%Z.
Proof.
  intros hs.
  destruct (search_loop_nonces sha256 job extranonce2 mrh target heights work_on fuel 0 0%Z)
    as [m Hm].
  fold (search sha256 job extranonce2 mrh target heights work_on fuel) in Hm.
  fold hs in Hm.
  assert (Hl : length hs = m).
  { rewrite Hm. clear Hm hs. revert m. assert (G : forall m c, length (nonce_run c m) = m).
    { induction m as [|m IH]; intros c; simpl; [reflexivity | now rewrite IH]. }
    intros m. apply G. }
  split; [|split].
  - rewrite Hl. exact Hm.
  - intros k Hk. rewrite Hm, nonce_run_nth by lia. f_equal. lia.
  - reflexivity.
Qed.

(** ** Height watcher *)

Lemma listener_step_height (config : MiningConfig) (o : result Z fetch_error) :
  current_height (listener_step config o)
  = match o with Ok h => Z.max (current_height config) h | Err _ => current_height config end.
Proof.
  unfold listener_step. destruct o as [h|e]; [|reflexivity].
  destruct (current_height config <? h)%Z eqn:E; simpl.
  - apply Z.ltb_lt in E. lia.
  - apply Z.ltb_ge in E. lia.
Qed.

(** C6: a watcher step never lowers [current_height] and raises it only to a
    strictly larger observation; after any sequence of observations (in any
    order, failures included) the stored height is the maximum of the
    initial value and the observed heights. *)
Lemma height_watcher_monotone_max :
  (forall config o, (current_height config <= current_height (listener_step config o))%Z) /\
  (forall config h, listener_step config (Ok h) <> config -> (current_height config < h)%Z) /\
  (forall config obs,
     current_height (run_listener config obs)
     = fold_left Z.max (ok_heights obs) (current_height config)).
Proof.
  split; [|split].
  - intros config o. rewrite listener_step_height. destruct o; lia.
  - intros config h H. unfold listener_step in H.
    destruct (current_height config <? h)%Z eqn:E; [apply Z.ltb_lt; exact E|].
    exfalso. apply H. reflexivity.
  - intros config obs. unfold run_listener. revert config.
    induction obs as [|o obs IH]; intros config; [reflexivity|].
    simpl fold_left. rewrite IH, listener_step_height.
    destruct o as [h|e]; reflexivity.
Qed.

(** ** Job decoding *)


(** C8: fewer than 9 params (or params not an array) fail; with at least 9,
    decoding succeeds exactly when positions 1-4 and 6-8 (0-based 0-3, 5-7)
    hold strings and otherwise fails with a missing-field error; a 5th element
    that is not a list gives an empty branch and a 9th element that is not a
    boolean gives [clean_jobs = false]. *)
Lemma decode_job_cases :
  (forall params, length (unwrap_or (Json.as_array params) []) < 9 ->
     decode_job params = Err InsufficientParameters) /\
  (forall ps, 9 <= length ps ->
     ((exists j, decode_job (Json.Array ps) = Ok j)
      <-> Forall (fun i => exists s, Json.as_str (nth i ps Json.Null) = Some s)
                 required_positions) /\
     (forall e, decode_job (Json.Array ps) = Err e -> exists name, e = MissingField name)) /\
  (forall ps j, decode_job (Json.Array ps) = Ok j ->
     (Json.as_array (nth 4 ps Json.Null) = None -> merkle_branch j = []) /\
     (Json.as_bool (nth 8 ps Json.Null) = None -> clean_jobs j = false)).
Proof.
  split; [|split].
  - intros params H. unfold decode_job. apply Nat.ltb_lt in H. rewrite H. reflexivity.
  - intros ps H. assert (H9 : (length ps <? 9) = false) by (apply Nat.ltb_ge; lia).
    unfold decode_job, field_str, required_positions. cbn [Json.as_array unwrap_or Json.idx].
    rewrite H9.
    destruct (Json.as_str (nth 0 ps Json.Null)) eqn:E0;
    [destruct (Json.as_str (nth 1 ps Json.Null)) eqn:E1;
     [destruct (Json.as_str (nth 2 ps Json.Null)) eqn:E2;
      [destruct (Json.as_str (nth 3 ps Json.Null)) eqn:E3;
       [destruct (Json.as_str (nth 5 ps Json.Null)) eqn:E5;
        [destruct (Json.as_str (nth 6 ps Json.Null)) eqn:E6;
         [destruct (Json.as_str (nth 7 ps Json.Null)) eqn:E7 | ] | ] | ] | ] | ] | ];
    (split;
     [ split;
       [ intros [j Hj];
         try discriminate Hj;
         repeat constructor; eexists; eassumption
       | intros HF; inversion HF as [|? ? [? Ea] HF1]; subst;
         inversion HF1 as [|? ? [? Eb] HF2]; subst;
         inversion HF2 as [|? ? [? Ec] HF3]; subst;
         inversion HF3 as [|? ? [? Ed] HF4]; subst;
         inversion HF4 as [|? ? [? Ee] HF5]; subst;
         inversion HF5 as [|? ? [? Ef] HF6]; subst;
         inversion HF6 as [|? ? [? Eg] HF7]; subst;
         congruence || (eexists; reflexivity) ]
     | intros e He; try discriminate He; injection He as <-; eexists; reflexivity ]).
  - intros ps j Hj. unfold decode_job, field_str in Hj.
    cbn [Json.as_array unwrap_or Json.idx] in Hj.
    destruct (length ps <? 9); [discriminate|].
    destruct (Json.as_str (nth 0 ps Json.Null)); [|discriminate].
    destruct (Json.as_str (nth 1 ps Json.Null)); [|discriminate].
    destruct (Json.as_str (nth 2 ps Json.Null)); [|discriminate].
    destruct (Json.as_str (nth 3 ps Json.Null)); [|discriminate].
    destruct (Json.as_str (nth 5 ps Json.Null)); [|discriminate].
    destruct (Json.as_str (nth 6 ps Json.Null)); [|discriminate].
    destruct (Json.as_str (nth 7 ps Json.Null)); [|discriminate].
    injection Hj as <-. simpl.
    split; intros E; rewrite E; reflexivity.
Qed.

(** ** Extranonce2 *)

Lemma decode_encode_byte (b : Byte.byte) : decode_pairs (encode_byte b) = Ok [b].
Proof. destruct b; reflexivity. Qed.

Lemma hex_decode_encode (bs : list Byte.byte) : hex_decode (hex_encode bs) = Ok bs.
Proof.
  induction bs as [|b bs IH]; [reflexivity|].
  unfold hex_encode. cbn [map concat].
  change (b :: bs) with ([b] ++ bs).
  apply hex_decode_app; [|exact IH].
  unfold hex_decode. simpl length. cbn [Nat.odd Nat.even negb]. apply decode_encode_byte.
Qed.

Lemma hex_encode_length (bs : list Byte.byte) : length (hex_encode bs) = 2 * length bs.
Proof.
  induction bs as [|b bs IH]; [reflexivity|].
  unfold hex_encode in *. cbn [map concat]. rewrite length_app, IH. simpl. lia.
Qed.


(** C9 (as stated): extranonce2 is as long as the size declared in the
    subscribe result. It is not: with a declared size of 8 the generated
    extranonce2 is still 4 bytes. *)
Lemma extranonce2_ignores_declared_size :
  ~ (forall response rnd e1 size e2,
       session_extranonces response rnd = Ok (e1, size, e2) ->
       exists bs, hex_decode e2 = Ok bs /\ Z.of_nat (length bs) = size).
Proof.
  intros H.
  destruct (H subscribe_response_8 (Byte.x00, Byte.x01, Byte.x02, Byte.x03)
              (lit "f000000f") 8%Z (lit "00010203") eq_refl) as [bs [Hd Hl]].
  vm_compute in Hd. injection Hd as <-. discriminate Hl.
Qed.

(** C9 (amended): whatever size the pool declares (read into
    [_extranonce2_size] and not used), the extranonce2 of a session is the
    8-character hex encoding of the 4 random bytes, i.e. exactly
    [EXTRANONCE2_SIZE_BYTES] = 4 bytes. *)
Lemma extranonce2_four_bytes (response : Json.Value)
  (rnd : Byte.byte * Byte.byte * Byte.byte * Byte.byte) (e1 : str) (size : Z) (e2 : str) :
  session_extranonces response rnd = Ok (e1, size, e2) ->
  length e2 = 8 /\ hex_decode e2 = Ok (let '(b0, b1, b2, b3) := rnd in [b0; b1; b2; b3])
  /\ length (let '(b0, b1, b2, b3) := rnd in [b0; b1; b2; b3]) = EXTRANONCE2_SIZE_BYTES.
Proof.
  unfold session_extranonces.
  destruct (subscribe_result response) as [[x1 x2]|err]; [|discriminate].
  intros H. injection H as _ _ <-.
  destruct rnd as [[[b0 b1] b2] b3]. unfold make_extranonce2.
  assert (Hl : length (hex_encode [b0; b1; b2; b3]) = 8) by (rewrite hex_encode_length; reflexivity).
  unfold pad_left. rewrite Hl. simpl repeat. rewrite app_nil_l.
  split; [exact Hl | split; [apply hex_decode_encode | reflexivity]].
Qed.

(** * Instances at concrete inputs *)

Lemma calculate_target_cases_witness :
  calculate_target (lit "1d00ffff") = Ok (target_spec 29 Byte.x00 Byte.xff Byte.xff)
  /\ target_spec 29 Byte.x00 Byte.xff Byte.xff
     = repeat Byte.x00 3 ++ [Byte.x00; Byte.xff; Byte.xff] ++ repeat Byte.x00 26
  /\ (exists err, calculate_target (lit "0200ffff") = Err err /\ is_invalid_target err = true)
  /\ (exists err, calculate_target (lit "2100ffff") = Err err /\ is_invalid_target err = true).
Proof.
  split; [|split; [reflexivity | split]].
  - destruct (calculate_target_cases (lit "1d00ffff") Byte.x1d Byte.x00 Byte.xff Byte.xff
                eq_refl eq_refl) as [_ H].
    apply H. simpl. lia.
  - destruct (calculate_target_cases (lit "0200ffff") Byte.x02 Byte.x00 Byte.xff Byte.xff
                eq_refl eq_refl) as [H _].
    apply H. simpl. lia.
  - destruct (calculate_target_cases (lit "2100ffff") Byte.x21 Byte.x00 Byte.xff Byte.xff
                eq_refl eq_refl) as [H _].
    apply H. simpl. lia.
Defined.

Lemma hash_meets_target_lex_witness :
  hash_meets_target (Byte.x00 :: repeat Byte.xff 31) (Byte.x00 :: repeat Byte.x00 31) = true
  <-> lex_le (Byte.x00 :: repeat Byte.xff 31) (Byte.x00 :: repeat Byte.x00 31) = true.
Proof.
  destruct hash_meets_target_lex as [H _].
  apply H; reflexivity.
Defined.

Lemma merkle_root_construction_witness :
  merkle_fold (fun l => firstn 32 (l ++ repeat Byte.x00 32)) [Byte.x01] [lit "ab"; lit "cd"]
  = Ok (fold_left (fun acc d => double_sha256 (fun l => firstn 32 (l ++ repeat Byte.x00 32))
                                  (acc ++ d))
          [[Byte.xab]; [Byte.xcd]] [Byte.x01]).
Proof.
  destruct merkle_root_construction as [H _].
  apply H. repeat constructor.
Defined.

Lemma search_at_most_one_solution_witness :
  length (filter is_submitted
            (search (fun _ => repeat Byte.x00 32) example_job [] [] (repeat Byte.x00 32)
               (fun _ => 0%Z) 0%Z 2)) <= 1
  /\ exists s, tl (search (fun _ => repeat Byte.x00 32) example_job [] [] (repeat Byte.x00 32)
                  (fun _ => 0%Z) 0%Z 2) = [Submitted s].
Proof.
  destruct (search_at_most_one_solution (fun _ => repeat Byte.x00 32) example_job [] []
              (repeat Byte.x00 32) (fun _ => 0%Z) 0%Z 2) as [H1 [_ H3]].
  split; [exact H1|].
  apply (H3 [] 1%Z); vm_compute; reflexivity.
Defined.

Lemma height_watcher_monotone_max_witness :
  (current_height (new_config [] false) < 5)%Z
  /\ current_height (run_listener (new_config [] false) [Ok 7%Z; Ok 3%Z; Err FetchFailed; Ok 5%Z])
     = fold_left Z.max [7%Z; 3%Z; 5%Z] 0%Z.
Proof.
  destruct height_watcher_monotone_max as [_ [H2 H3]].
  split.
  - apply H2. discriminate.
  - apply H3.
Defined.

Lemma search_nonce_order_witness :
  nth 0 (hashed_nonces (search (fun _ => repeat Byte.xff 32) example_job [] []
                          (repeat Byte.x00 32) (fun _ => 0%Z) 0%Z 1)) 0%Z
  = ((Z.of_nat 0 + 1) mod 2 ^ 32)%Z.
Proof.
  destruct (search_nonce_order (fun _ => repeat Byte.xff 32) example_job [] []
              (repeat Byte.x00 32) (fun _ => 0%Z) 0%Z 1) as [_ [H _]].
  apply H. apply Nat.ltb_lt. vm_compute. reflexivity.
Defined.

Lemma decode_job_cases_witness :
  let ps := [Json.String (lit "1"); Json.String (repeat zero_char 64);
             Json.String (lit "01"); Json.String (lit "02"); Json.Null;
             Json.String (lit "00000001"); Json.String (lit "1d00ffff");
             Json.String (lit "5f5e1000"); Json.String (lit "yes")] in
  (exists j, decode_job (Json.Array ps) = Ok j)
  /\ (forall j, decode_job (Json.Array ps) = Ok j -> merkle_branch j = [] /\ clean_jobs j = false).
Proof.
  intros ps. destruct decode_job_cases as [_ [H2 H3]].
  split.
  - apply (H2 ps); [simpl; lia|]. repeat constructor; eexists; reflexivity.
  - intros j Hj. destruct (H3 ps j Hj) as [Ha Hb].
    split; [apply Ha | apply Hb]; reflexivity.
Defined.

Lemma extranonce2_four_bytes_witness :
  length (lit "00010203") = 8
  /\ hex_decode (lit "00010203") = Ok [Byte.x00; Byte.x01; Byte.x02; Byte.x03]
  /\ length [Byte.x00; Byte.x01; Byte.x02; Byte.x03] = EXTRANONCE2_SIZE_BYTES.
Proof.
  apply (extranonce2_four_bytes subscribe_response_8 (Byte.x00, Byte.x01, Byte.x02, Byte.x03)
           (lit "f000000f") 8%Z).
  vm_compute. reflexivity.
Defined.

Lemma hash_meets_target_bad_length_witness :
  hash_meets_target (repeat Byte.x00 31) (repeat Byte.xff 32) = false.
Proof.
  apply hash_meets_target_bad_length. left. simpl. discriminate.
Defined.

(** * Further properties of the code *)

(** ** Targets and comparison as numbers *)

Lemma be_value_bound (a : list Byte.byte) :
  (0 <= be_value a < 256 ^ Z.of_nat (length a))%Z.
Proof.
  induction a as [|x a IH]; simpl be_value; [simpl; lia|].
  pose proof (Byte.to_nat_bounded x).
  replace (Z.of_nat (length (x :: a))) with (Z.of_nat (length a) + 1)%Z by (simpl; lia).
  rewrite Z.pow_add_r by lia.
  assert (0 < 256 ^ Z.of_nat (length a))%Z by (apply Z.pow_pos_nonneg; lia).
  nia.
Qed.

Lemma be_value_app (a b : list Byte.byte) :
  be_value (a ++ b) = (be_value a * 256 ^ Z.of_nat (length b) + be_value b)%Z.
Proof.
  induction a as [|x a IH]; simpl; [lia|].
  rewrite IH, length_app, Nat2Z.inj_add, Z.pow_add_r by lia. ring.
Qed.

Lemma be_value_zeros (k : nat) : be_value (repeat Byte.x00 k) = 0%Z.
Proof. induction k as [|k IH]; simpl; [reflexivity | rewrite IH; lia]. Qed.

Lemma lex_le_be_value (a b : list Byte.byte) :
  length a = length b -> lex_le a b = (be_value a <=? be_value b)%Z.
Proof.
  revert b. induction a as [|x a IH]; intros [|y b] Hl; simpl in Hl; try discriminate.
  - reflexivity.
  - injection Hl as Hl. simpl lex_le. simpl be_value. rewrite (IH b Hl), Hl.
    pose proof (be_value_bound a) as Ba. pose proof (be_value_bound b) as Bb.
    rewrite Hl in Ba.
    set (P := (256 ^ Z.of_nat (length b))%Z) in *.
    destruct (Nat.compare_spec (Byte.to_nat x) (Byte.to_nat y)) as [E|E|E].
    + rewrite E, Nat.ltb_irrefl, Nat.eqb_refl. simpl.
      destruct (be_value a <=? be_value b)%Z eqn:C.
      * apply Z.leb_le in C. symmetry. apply Z.leb_le. lia.
      * apply Z.leb_gt in C. symmetry. apply Z.leb_gt. lia.
    + apply Nat.ltb_lt in E as E'. rewrite E'. simpl. symmetry. apply Z.leb_le.
      apply Nat.ltb_lt in E'.
      assert (Z.of_nat (Byte.to_nat x) + 1 <= Z.of_nat (Byte.to_nat y))%Z by lia. nia.
    + assert (E1 : (Byte.to_nat x <? Byte.to_nat y) = false) by (apply Nat.ltb_ge; lia).
      assert (E2 : (Byte.to_nat x =? Byte.to_nat y) = false) by (apply Nat.eqb_neq; lia).
      rewrite E1, E2. simpl. symmetry. apply Z.leb_gt.
      assert (Z.of_nat (Byte.to_nat y) + 1 <= Z.of_nat (Byte.to_nat x))%Z by lia. nia.
Qed.

Lemma calculate_target_in_range (nbits : str) (e m1 m2 m3 : Byte.byte) :
  hex_decode nbits = Ok [e; m1; m2; m3] -> 3 <= Byte.to_nat e <= 32 ->
  calculate_target nbits = Ok (target_spec (Byte.to_nat e) m1 m2 m3).
Proof.
  intros Hd He.
  pose proof (hex_decode_length _ _ Hd) as Hl. simpl in Hl.
  unfold calculate_target. rewrite Hl, Hd. cbn [negb Nat.eqb].
  assert (E3 : (Byte.to_nat e <? 3) = false) by (apply Nat.ltb_ge; lia).
  assert (E32 : (32 <? Byte.to_nat e) = false) by (apply Nat.ltb_ge; lia).
  assert (Es : (32 <=? Byte.to_nat e - 3) = false) by (apply Nat.leb_gt; lia).
  assert (Ep0 : (32 - (Byte.to_nat e - 3) - 3 <? 32) = true) by (apply Nat.ltb_lt; lia).
  assert (Ep1 : (32 - (Byte.to_nat e - 3) - 3 + 1 <? 32) = true) by (apply Nat.ltb_lt; lia).
  assert (Ep2 : (32 - (Byte.to_nat e - 3) - 3 + 2 <? 32) = true) by (apply Nat.ltb_lt; lia).
  rewrite E3, E32, Es, Ep0, Ep1, Ep2.
  f_equal. apply place_mantissa. exact He.
Qed.

(** [hash_meets_target] on two 32-byte buffers is the numeric comparison
    [hash <= target] of the big-endian numbers they denote. *)
Lemma hash_meets_target_numeric (hash target : list Byte.byte) :
  length hash = 32 -> length target = 32 ->
  hash_meets_target hash target = (be_value hash <=? be_value target)%Z.
Proof.
  intros Hh Ht. unfold hash_meets_target. rewrite Hh, Ht. cbn [negb orb Nat.eqb].
  rewrite <- Hh at 1. rewrite meets_loop_lex by congruence.
  apply lex_le_be_value. congruence.
Qed.

(** [calculate_target] computes [mantissa * 256^(exponent - 3)] as a 32-byte
    big-endian number (the formula of its doc comment), so a 32-byte hash
    meets the decoded target exactly when its value is at most that number. *)
Lemma calculate_target_value (nbits : str) (e m1 m2 m3 : Byte.byte) :
  hex_decode nbits = Ok [e; m1; m2; m3] ->
  3 <= Byte.to_nat e <= 32 ->
  exists target,
    calculate_target nbits = Ok target /\ length target = 32 /\
    be_value target = (be_value [m1; m2; m3] * 256 ^ (Z.of_nat (Byte.to_nat e) - 3))%Z /\
    (forall hash, length hash = 32 ->
       hash_meets_target hash target = true
       <-> (be_value hash <= be_value [m1; m2; m3] * 256 ^ (Z.of_nat (Byte.to_nat e) - 3))%Z).
Proof.
  intros Hd He.
  pose proof (calculate_target_in_range nbits e m1 m2 m3 Hd He) as Hc.
  assert (Hlen : length (target_spec (Byte.to_nat e) m1 m2 m3) = 32)
    by (destruct (target_spec_length (Byte.to_nat e) m1 m2 m3); [assumption | lia]).
  assert (Hv : be_value (target_spec (Byte.to_nat e) m1 m2 m3)
               = (be_value [m1; m2; m3] * 256 ^ (Z.of_nat (Byte.to_nat e) - 3))%Z).
  { unfold target_spec. rewrite !be_value_app, !be_value_zeros, repeat_length.
    replace (Z.of_nat (Byte.to_nat e - 3)) with (Z.of_nat (Byte.to_nat e) - 3)%Z by lia.
    ring. }
  exists (target_spec (Byte.to_nat e) m1 m2 m3). split; [exact Hc|]. split; [exact Hlen|].
  split; [exact Hv|].
  intros hash Hh. rewrite hash_meets_target_numeric by assumption. rewrite Hv.
  split; intros X; [apply Z.leb_le in X | apply Z.leb_le]; exact X.
Qed.

(** ** The nonce in the header *)

Lemma hex_val_nibble (a : nat) : a < 16 -> hex_val (nibble_char a) = Some a.
Proof.
  intros H. do 16 (destruct a as [|a]; [reflexivity|]). lia.
Qed.

Lemma to_nat_byte_of_nat (x : nat) : x < 256 -> Byte.to_nat (byte_of_nat x) = x.
Proof.
  intros H. unfold byte_of_nat.
  pose proof (byte_of_ascii_via_nat (ascii_of_nat x)) as E.
  symmetry in E. apply Byte.to_of_nat in E. rewrite E.
  apply nat_ascii_embedding. exact H.
Qed.

Lemma nibble_eq (n k : Z) :
  (0 <= k)%Z -> Z.land (Z.shiftr n (4 * k)) 15 = ((n / 2 ^ (4 * k)) mod 16)%Z.
Proof.
  intros Hk. rewrite Z.shiftr_div_pow2 by lia.
  change 15%Z with (Z.ones 4). rewrite Z.land_ones by lia. reflexivity.
Qed.

Lemma digit_step (n k : Z) :
  (0 <= k)%Z ->
  (n / 2 ^ (4 * k) = 16 * (n / 2 ^ (4 * (k + 1))) + (n / 2 ^ (4 * k)) mod 16)%Z.
Proof.
  intros Hk. rewrite (Z.div_mod (n / 2 ^ (4 * k)) 16) at 1 by lia. f_equal. f_equal.
  rewrite Z.div_div by (try apply Z.pow_pos_nonneg; lia).
  f_equal. replace (4 * (k + 1))%Z with (4 * k + 4)%Z by lia.
  rewrite Z.pow_add_r by lia. reflexivity.
Qed.

Lemma nibble_bound (n k : Z) : (0 <= Z.land (Z.shiftr n (4 * k)) 15 < 16)%Z.
Proof.
  change 15%Z with (Z.ones 4). rewrite Z.land_ones by lia.
  apply Z.mod_pos_bound. lia.
Qed.

(** [format!("{:08x}", n)] of a [u32] decodes to four bytes whose big-endian
    value is [n]: the nonce is written into the header most significant byte
    first. *)
Lemma nonce_hex_decode (n : Z) :
  (0 <= n < 2 ^ 32)%Z ->
  exists bs, hex_decode (nonce_hex n) = Ok bs /\ length bs = 4 /\ be_value bs = n.
Proof.
  intros Hn.
  set (d := fun k : Z => Z.to_nat (Z.land (Z.shiftr n (4 * k)) 15)).
  assert (Hd : forall k, d k < 16).
  { intros k. unfold d. pose proof (nibble_bound n k). lia. }
  exists [byte_of_nat (16 * d 7%Z + d 6%Z); byte_of_nat (16 * d 5%Z + d 4%Z);
          byte_of_nat (16 * d 3%Z + d 2%Z); byte_of_nat (16 * d 1%Z + d 0%Z)].
  split; [|split; [reflexivity|]].
  - unfold hex_decode, nonce_hex. cbn [map length Nat.odd Nat.even negb].
    fold (d 7%Z) (d 6%Z) (d 5%Z) (d 4%Z) (d 3%Z) (d 2%Z) (d 1%Z) (d 0%Z).
    cbn [decode_pairs].
    rewrite !hex_val_nibble by apply Hd. reflexivity.
  - cbn [be_value length].
    rewrite !to_nat_byte_of_nat by (pose proof (Hd 0%Z); pose proof (Hd 1%Z);
      pose proof (Hd 2%Z); pose proof (Hd 3%Z); pose proof (Hd 4%Z); pose proof (Hd 5%Z);
      pose proof (Hd 6%Z); pose proof (Hd 7%Z); lia).
    unfold d. rewrite !Nat2Z.inj_add, !Nat2Z.inj_mul, !Z2Nat.id by apply nibble_bound.
    rewrite !nibble_eq by lia.
    pose proof (digit_step n 0) as S0. pose proof (digit_step n 1) as S1.
    pose proof (digit_step n 2) as S2. pose proof (digit_step n 3) as S3.
    pose proof (digit_step n 4) as S4. pose proof (digit_step n 5) as S5.
    pose proof (digit_step n 6) as S6. pose proof (digit_step n 7) as S7.
    assert (Q8 : (n / 2 ^ (4 * (7 + 1)) = 0)%Z) by (apply Z.div_small; exact Hn).
    change (4 * (0 + 1))%Z with (4 * 1)%Z in S0.
    change (4 * (1 + 1))%Z with (4 * 2)%Z in S1.
    change (4 * (2 + 1))%Z with (4 * 3)%Z in S2.
    change (4 * (3 + 1))%Z with (4 * 4)%Z in S3.
    change (4 * (4 + 1))%Z with (4 * 5)%Z in S4.
    change (4 * (5 + 1))%Z with (4 * 6)%Z in S5.
    change (4 * (6 + 1))%Z with (4 * 7)%Z in S6.
    change (4 * (7 + 1))%Z with (4 * 8)%Z in S7, Q8.
    change (n / 2 ^ (4 * 0))%Z with (n / 1)%Z in S0 |- *. rewrite Z.div_1_r in S0 |- *.
    set (q1 := (n / 2 ^ (4 * 1))%Z) in *. set (q2 := (n / 2 ^ (4 * 2))%Z) in *.
    set (q3 := (n / 2 ^ (4 * 3))%Z) in *. set (q4 := (n / 2 ^ (4 * 4))%Z) in *.
    set (q5 := (n / 2 ^ (4 * 5))%Z) in *. set (q6 := (n / 2 ^ (4 * 6))%Z) in *.
    set (q7 := (n / 2 ^ (4 * 7))%Z) in *. set (q8 := (n / 2 ^ (4 * 8))%Z) in *.
    change (256 ^ Z.of_nat 3)%Z with 16777216%Z.
    change (256 ^ Z.of_nat 2)%Z with 65536%Z.
    change (256 ^ Z.of_nat 1)%Z with 256%Z.
    change (256 ^ Z.of_nat 0)%Z with 1%Z.
    specialize (S0 ltac:(lia)). specialize (S1 ltac:(lia)). specialize (S2 ltac:(lia)).
    specialize (S3 ltac:(lia)). specialize (S4 ltac:(lia)). specialize (S5 ltac:(lia)).
    specialize (S6 ltac:(lia)). specialize (S7 ltac:(lia)).
    lia.
Qed.

Lemma nonce_hex_length (n : Z) : length (nonce_hex n) = 8.
Proof. reflexivity. Qed.

(** With header fields that decode and fit their widths, every header
    [create_block_header] builds for a [u32] nonce is the same 76 bytes followed
    by the nonce in big-endian order. *)
Lemma create_block_header_nonce_suffix (v p m nb nt : str) (dv dp dm dnb dnt : list Byte.byte) :
  hex_decode v = Ok dv -> hex_decode p = Ok dp -> hex_decode m = Ok dm ->
  hex_decode nb = Ok dnb -> hex_decode nt = Ok dnt ->
  length v <= 8 -> length p <= 64 -> length m <= 64 -> length nb <= 8 -> length nt <= 8 ->
  exists pre, length pre = 76 /\
    forall n, (0 <= n < 2 ^ 32)%Z ->
      exists bs, create_block_header v p m nb nt (nonce_hex n) = Ok (pre ++ bs)
                 /\ length bs = 4 /\ be_value bs = n.
Proof.
  intros Hv Hp Hm Hnb Hnt Lv Lp Lm Lnb Lnt.
  pose proof (hex_decode_length _ _ Hv). pose proof (hex_decode_length _ _ Hp).
  pose proof (hex_decode_length _ _ Hm). pose proof (hex_decode_length _ _ Hnb).
  pose proof (hex_decode_length _ _ Hnt).
  exists ((repeat Byte.x00 (4 - length dv) ++ dv)
          ++ (dp ++ repeat Byte.x00 (32 - length dp))
          ++ (dm ++ repeat Byte.x00 (32 - length dm))
          ++ (repeat Byte.x00 (4 - length dnb) ++ dnb)
          ++ (repeat Byte.x00 (4 - length dnt) ++ dnt)).
  split; [rewrite !length_app, !repeat_length; lia|].
  intros n Hn. destruct (nonce_hex_decode n Hn) as [bs [Hbs [Lbs Vbs]]].
  exists bs. split; [|split; assumption].
  unfold create_block_header, header_hex.
  assert (Hno : hex_decode (pad_left 8 (nonce_hex n)) = Ok bs).
  { rewrite (pad_left_decode 8 4 _ bs eq_refl Hbs) by (rewrite nonce_hex_length; lia).
    rewrite Lbs. reflexivity. }
  rewrite (hex_decode_app _ _ _ _ (pad_left_decode 8 4 _ _ eq_refl Hv ltac:(lia))
    (hex_decode_app _ _ _ _ (pad_right_decode 64 32 _ _ eq_refl Hp ltac:(lia))
    (hex_decode_app _ _ _ _ (pad_right_decode 64 32 _ _ eq_refl Hm ltac:(lia))
    (hex_decode_app _ _ _ _ (pad_left_decode 8 4 _ _ eq_refl Hnb ltac:(lia))
    (hex_decode_app _ _ _ _ (pad_left_decode 8 4 _ _ eq_refl Hnt ltac:(lia)) Hno))))).
  cbn [map_err]. rewrite !app_assoc. reflexivity.
Qed.

(** ** Byte-group reversal on strings of any length *)

Lemma even_groups (n : nat) (s : str) :
  length s = 2 * n -> exists ps, Forall (fun p => length p = 2) ps /\ concat ps = s.
Proof.
  revert s. induction n as [|n IH]; intros s Hs.
  - exists []. destruct s; [split; constructor | discriminate].
  - destruct s as [|a [|b s]]; try (simpl in Hs; lia).
    destruct (IH s) as [ps [Hps Hc]]; [simpl in Hs; lia|].
    exists ([a; b] :: ps). split; [constructor; [reflexivity | exact Hps]|].
    simpl. rewrite Hc. reflexivity.
Qed.

Lemma slice2_app_short (s t : str) (i : nat) :
  i + 2 <= length s -> slice2 (s ++ t) i = slice2 s i.
Proof.
  intros H. unfold slice2. rewrite skipn_app.
  replace (i - length s) with 0 by lia. rewrite skipn_O, firstn_app, length_skipn.
  replace (2 - (length s - i)) with 0 by lia. rewrite firstn_O, app_nil_r. reflexivity.
Qed.

Lemma reverse_hex_bytes_groups_odd (ps : list str) (c : ascii) :
  Forall (fun p => length p = 2) ps -> reverse_hex_bytes (concat ps ++ [c]) = concat (rev ps).
Proof.
  intros H. unfold reverse_hex_bytes.
  rewrite length_app, (concat_pairs_length ps H). cbn [length].
  unfold step_by2.
  replace ((2 * length ps + 1 + 1) / 2) with (S (length ps)).
  2:{ apply Nat.div_unique with (r := 0); lia. }
  rewrite seq_S, map_app, rev_app_distr. cbn [map rev app].
  rewrite Nat.add_0_l.
  replace (2 * length ps + 1 <? 2 * length ps + 1) with false
    by (symmetry; apply Nat.ltb_ge; lia).
  cbn [concat app]. rewrite map_rev, map_map. f_equal. f_equal.
  rewrite <- (map_nth_seq0 ps []) at 2.
  apply map_ext_in. intros k Hk. apply in_seq in Hk.
  replace (2 * k + 1 <? 2 * length ps + 1) with true by (symmetry; apply Nat.ltb_lt; lia).
  rewrite slice2_app_short by (rewrite (concat_pairs_length ps H); lia).
  apply slice2_concat. exact H.
Qed.

(** On an ASCII string of even length (where the Rust slicing cannot
    panic), [reverse_hex_bytes] undoes itself. *)
Lemma reverse_hex_bytes_involutive (s : str) :
  Forall (fun c => nat_of_ascii c < 128) s ->
  Nat.even (length s) = true -> reverse_hex_bytes (reverse_hex_bytes s) = s.
Proof.
  intros _ He. apply Nat.even_spec in He. destruct He as [n Hn].
  destruct (even_groups n s Hn) as [ps [Hps <-]].
  rewrite (reverse_hex_bytes_groups ps Hps).
  rewrite <- (rev_involutive ps) at 2.
  apply reverse_hex_bytes_groups. apply Forall_rev. exact Hps.
Qed.

(** On an ASCII string of odd length (where the Rust slicing cannot panic),
    the last character has no partner: the guard [i + 1 < hex_str.len()]
    skips it, and the result is that of the string without it. *)
Lemma reverse_hex_bytes_drops_odd_char (s : str) (c : ascii) :
  Forall (fun c => nat_of_ascii c < 128) (s ++ [c]) ->
  Nat.even (length s) = true -> reverse_hex_bytes (s ++ [c]) = reverse_hex_bytes s.
Proof.
  intros _ He. apply Nat.even_spec in He. destruct He as [n Hn].
  destruct (even_groups n s Hn) as [ps [Hps <-]].
  rewrite (reverse_hex_bytes_groups_odd ps c Hps), (reverse_hex_bytes_groups ps Hps).
  reflexivity.
Qed.

(** ** Header failures do not depend on the nonce *)

Lemma decode_pairs_app_err (a b : str) (e : hex_error) :
  Nat.even (length a) = true -> decode_pairs a = Err e -> decode_pairs (a ++ b) = Err e.
Proof.
  remember (length a) as n eqn:Hn. revert a Hn.
  induction n as [n IH] using lt_wf_ind. intros a Hn Hev Ha.
  destruct a as [|c1 [|c2 a]].
  - discriminate Ha.
  - subst n. discriminate Hev.
  - simpl in Ha |- *.
    destruct (hex_val c1) as [hi|]; [|exact Ha].
    destruct (hex_val c2) as [lo|]; [|exact Ha].
    destruct (decode_pairs a) as [da|e'] eqn:Ea; [discriminate|].
    injection Ha as <-.
    rewrite (IH (length a)) with (a := a); try reflexivity; try assumption.
    + subst n; simpl; lia.
    + subst n. simpl in Hev. exact Hev.
Qed.

Lemma hex_decode_suffix_err (a b b' : str) (db db' : list Byte.byte) (e : hex_error) :
  hex_decode b = Ok db -> hex_decode b' = Ok db' -> length b = length b' ->
  hex_decode (a ++ b) = Err e -> hex_decode (a ++ b') = Err e.
Proof.
  intros Hb Hb' L H.
  pose proof (hex_decode_length b db Hb) as Lb.
  unfold hex_decode in *. rewrite length_app in *. rewrite <- L.
  destruct (Nat.odd (length a + length b)) eqn:Eo; [exact H|].
  assert (Ea : Nat.even (length a) = true).
  { rewrite <- Nat.negb_odd. rewrite Lb, Nat.odd_add, Nat.odd_mul, Nat.odd_2 in Eo.
    destruct (Nat.odd (length a)); [discriminate | reflexivity]. }
  destruct (decode_pairs a) as [da|e'] eqn:Da.
  - rewrite Lb, Nat.odd_mul, Nat.odd_2 in Hb. simpl in Hb.
    rewrite (decode_pairs_app a b da db Ea Da Hb) in H. discriminate.
  - rewrite (decode_pairs_app_err a b e' Ea Da) in H.
    rewrite (decode_pairs_app_err a b' e' Ea Da). exact H.
Qed.

Lemma nonce_hex_valid (n : Z) : exists bs, hex_decode (nonce_hex n) = Ok bs.
Proof.
  set (d := fun k : Z => Z.to_nat (Z.land (Z.shiftr n (4 * k)) 15)).
  assert (Hd : forall k, d k < 16).
  { intros k. unfold d. pose proof (nibble_bound n k). lia. }
  eexists. unfold hex_decode, nonce_hex. cbn [map length Nat.odd Nat.even negb].
  fold (d 7%Z) (d 6%Z) (d 5%Z) (d 4%Z) (d 3%Z) (d 2%Z) (d 1%Z) (d 0%Z).
  cbn [decode_pairs].
  rewrite !hex_val_nibble by apply Hd. reflexivity.
Qed.

Lemma pad_left_nonce (n : Z) : pad_left 8 (nonce_hex n) = nonce_hex n.
Proof. unfold pad_left. rewrite nonce_hex_length. reflexivity. Qed.

(** [create_block_header] fails for one nonce exactly when it fails for any
    other, with the same error: [format!("{:08x}", n)] is always eight valid
    hex digits. *)
Lemma create_block_header_error_nonce_independent (v p m nb nt : str) (n n' : Z)
  (e : header_error) :
  create_block_header v p m nb nt (nonce_hex n) = Err e ->
  create_block_header v p m nb nt (nonce_hex n') = Err e.
Proof.
  unfold create_block_header, header_hex, map_err.
  rewrite !pad_left_nonce, !app_assoc.
  destruct (nonce_hex_valid n) as [bs Hbs]. destruct (nonce_hex_valid n') as [bs' Hbs'].
  destruct (hex_decode (_ ++ nonce_hex n)) as [h|e0] eqn:E; [discriminate|].
  intros Hee. injection Hee as <-.
  erewrite (hex_decode_suffix_err _ _ _ _ _ _ Hbs Hbs'); [reflexivity| |exact E].
  rewrite !nonce_hex_length. reflexivity.
Qed.

(** ** The shape of a search run *)

Lemma app_split_at {A} (l1 l2 pre post : list A) (x : A) :
  ~ In x l1 -> l1 ++ l2 = pre ++ x :: post ->
  exists pre', pre = l1 ++ pre' /\ l2 = pre' ++ x :: post.
Proof.
  revert pre. induction l1 as [|a l1 IH]; intros pre Hn H.
  - exists pre. split; [reflexivity | exact H].
  - destruct pre as [|b pre].
    + injection H as Ha _. exfalso. apply Hn. left. exact Ha.
    + injection H as <- H. destruct (IH pre) as [pre' [-> E]].
      * intros Hi. apply Hn. right. exact Hi.
      * exact H.
      * exists pre'. split; [reflexivity | exact E].
Qed.

Section SearchRuns.

Variable sha256 : list Byte.byte -> list Byte.byte.
Variable job : MiningJob.
Variable extranonce2 : str.
Variable mrh : str.
Variable target : list Byte.byte.
Variable heights : nat -> Z.
Variable work_on : Z.

Let batch := nonce_batch sha256 job extranonce2 mrh target.
Let loop := search_loop sha256 job extranonce2 mrh target heights work_on.
Let header n := create_block_header (version job) (prevhash job) mrh (nbits job) (ntime job)
                  (nonce_hex n).

Lemma nonce_batch_S (k : nat) (c : Z) :
  batch (S k) c =
  match header (wrapping_add_u32 c 1) with
  | Err e => ([HeaderFailed e], Stop)
  | Ok header_bytes =>
      let hash_bytes := double_sha256 sha256 header_bytes in
      if hash_meets_target hash_bytes target then
        ([Hashed (wrapping_add_u32 c 1);
          Submitted {| sol_hash := hash_bytes; sol_nonce := nonce_hex (wrapping_add_u32 c 1);
                       sol_job_id := job_id job; sol_extranonce2 := extranonce2;
                       sol_ntime := ntime job |}], Stop)
      else
        let '(evs, e) := batch k (wrapping_add_u32 c 1) in
        (Hashed (wrapping_add_u32 c 1) :: evs, e)
  end.
Proof. reflexivity. Qed.

Lemma batch_no_header_failure (Hok : forall n, exists h, header n = Ok h)
  (k : nat) (c : Z) (e : header_error) : ~ In (HeaderFailed e) (fst (batch k c)).
Proof.
  revert c. induction k as [|k IH]; intros c; [intros []|].
  rewrite nonce_batch_S. destruct (Hok (wrapping_add_u32 c 1)) as [h Hh]. rewrite Hh.
  cbv zeta. destruct (hash_meets_target (double_sha256 sha256 h) target).
  - simpl. intros [H|[H|[]]]; discriminate.
  - specialize (IH (wrapping_add_u32 c 1)).
    destruct (batch k (wrapping_add_u32 c 1)) as [evs b]. simpl in IH |- *.
    intros [H|H]; [discriminate | exact (IH H)].
Qed.

Lemma loop_no_header_failure (Hok : forall n, exists h, header n = Ok h)
  (fuel i : nat) (c : Z) (e : header_error) : ~ In (HeaderFailed e) (loop fuel i c).
Proof.
  revert i c. induction fuel as [|fuel IH]; intros i c; [intros []|].
  unfold loop. cbn [search_loop]. destruct (work_on <? heights i)%Z.
  - intros [H|[]]. discriminate.
  - pose proof (batch_no_header_failure Hok HASHES_PER_BATCH c e) as B.
    unfold batch in B.
    destruct (nonce_batch sha256 job extranonce2 mrh target HASHES_PER_BATCH c) as [evs b].
    simpl in B. destruct b as [c'|]; [|exact B].
    rewrite in_app_iff. intros [H|H]; [exact (B H) | exact (IH (S i) c' H)].
Qed.

Lemma batch_no_restart (k : nat) (c : Z) : ~ In Restarted (fst (batch k c)).
Proof.
  revert c. induction k as [|k IH]; intros c; [intros []|].
  rewrite nonce_batch_S. destruct (header (wrapping_add_u32 c 1)) as [h|err].
  - cbv zeta. destruct (hash_meets_target (double_sha256 sha256 h) target).
    + simpl. intros [H|[H|[]]]; discriminate.
    + specialize (IH (wrapping_add_u32 c 1)).
      destruct (batch k (wrapping_add_u32 c 1)) as [evs b]. simpl in IH |- *.
      intros [H|H]; [discriminate | exact (IH H)].
  - simpl. intros [H|[]]. discriminate.
Qed.

Lemma batch_done (k : nat) (c c' : Z) (evs : list event) :
  batch k c = (evs, BatchDone c') -> evs = map Hashed (nonce_run c k) /\ c' = nonce_after c k.
Proof.
  revert c evs. induction k as [|k IH]; intros c evs.
  - simpl. intros H. injection H as <- <-. split; reflexivity.
  - rewrite nonce_batch_S. destruct (header (wrapping_add_u32 c 1)) as [h|err];
      [|discriminate].
    cbv zeta. destruct (hash_meets_target (double_sha256 sha256 h) target); [discriminate|].
    destruct (batch k (wrapping_add_u32 c 1)) as [evs0 b] eqn:B.
    intros H. injection H as <- ->. destruct (IH _ _ B) as [-> ->]. split; reflexivity.
Qed.

Lemma batch_all_miss
  (Hok : forall n, exists h, header n = Ok h)
  (Hmiss : forall n, nonce_meets sha256 job mrh target n = false) (k : nat) (c : Z) :
  batch k c = (map Hashed (nonce_run c k), BatchDone (nonce_after c k)).
Proof.
  revert c. induction k as [|k IH]; intros c; [reflexivity|].
  rewrite nonce_batch_S. destruct (Hok (wrapping_add_u32 c 1)) as [h Hh]. rewrite Hh.
  pose proof (Hmiss (wrapping_add_u32 c 1)) as Hm. unfold nonce_meets in Hm.
  fold (header (wrapping_add_u32 c 1)) in Hm. rewrite Hh in Hm.
  cbv zeta. rewrite Hm, IH. reflexivity.
Qed.

Lemma loop_restart (fuel i : nat) (c : Z) (pre post : list event) :
  loop fuel i c = pre ++ Restarted :: post ->
  post = [] /\ exists j, j < fuel /\ pre = map Hashed (nonce_run c (j * HASHES_PER_BATCH))
                         /\ (work_on < heights (i + j))%Z
                         /\ (forall i', i <= i' < i + j -> (heights i' <= work_on)%Z).
Proof.
  revert i c pre. induction fuel as [|fuel IH]; intros i c pre.
  - unfold loop. cbn [search_loop]. destruct pre; discriminate.
  - unfold loop. cbn [search_loop]. destruct (work_on <? heights i)%Z eqn:Hw.
    + intros H. destruct pre as [|a pre].
      * injection H as <-. split; [reflexivity|]. exists 0. split; [lia|]. split; [reflexivity|].
        split; [rewrite Nat.add_0_r; apply Z.ltb_lt; exact Hw | intros i' Hi'; lia].
      * injection H as _ H. destruct pre; discriminate.
    + pose proof (batch_no_restart HASHES_PER_BATCH c) as Bn.
      pose proof (batch_done HASHES_PER_BATCH c) as Bd.
      unfold batch in Bn, Bd.
      destruct (nonce_batch sha256 job extranonce2 mrh target HASHES_PER_BATCH c)
        as [evs b] eqn:B.
      simpl in Bn. destruct b as [c'|].
      * destruct (Bd c' evs eq_refl) as [-> ->]. intros H.
        destruct (app_split_at _ _ _ _ _ Bn H) as [pre' [-> H']].
        destruct (IH (S i) _ pre' H') as [-> [j [Hj [Hpre [Hlt Hle]]]]].
        split; [reflexivity|]. exists (S j). split; [lia|]. split.
        -- rewrite Hpre, <- map_app, <- nonce_run_app. reflexivity.
        -- split.
           ++ replace (i + S j) with (S i + j) by lia. exact Hlt.
           ++ intros i' Hi'. destruct (Nat.eq_dec i' i) as [->|Hne].
              ** apply Z.ltb_ge. exact Hw.
              ** apply Hle. lia.
      * intros H. exfalso. apply Bn. rewrite H. apply in_or_app. right. left. reflexivity.
Qed.

Lemma loop_no_event
  (Hok : forall n, exists h, header n = Ok h)
  (Hmiss : forall n, nonce_meets sha256 job mrh target n = false) (fuel i : nat) (c : Z) :
  (forall i', i <= i' < i + fuel -> (heights i' <= work_on)%Z) ->
  loop fuel i c = map Hashed (nonce_run c (fuel * HASHES_PER_BATCH)).
Proof.
  revert i c. induction fuel as [|fuel IH]; intros i c Hh; [reflexivity|].
  unfold loop. cbn [search_loop].
  replace (work_on <? heights i)%Z with false
    by (symmetry; apply Z.ltb_ge; apply Hh; lia).
  pose proof (batch_all_miss Hok Hmiss HASHES_PER_BATCH c) as B. unfold batch in B.
  rewrite B. fold loop. rewrite IH by (intros i' Hi'; apply Hh; lia).
  rewrite <- map_app, <- nonce_run_app. reflexivity.
Qed.

(** A [HeaderFailed] event can only be the whole trace: the first header is
    built for nonce 1, and a header that builds for one nonce builds for all. *)
Lemma search_header_failure_only_first (fuel : nat) (e : header_error) :
  In (HeaderFailed e) (search sha256 job extranonce2 mrh target heights work_on fuel) ->
  search sha256 job extranonce2 mrh target heights work_on fuel = [HeaderFailed e].
Proof.
  unfold search.
  destruct (header (wrapping_add_u32 0 1)) as [h0|e0] eqn:E0.
  - assert (Hok : forall n, exists h, header n = Ok h).
    { intros n. destruct (header n) as [h|en] eqn:En; [exists h; reflexivity|].
      unfold header in En, E0.
      apply (create_block_header_error_nonce_independent _ _ _ _ _ n (wrapping_add_u32 0 1))
        in En.
      rewrite E0 in En. discriminate. }
    intros H. exfalso. exact (loop_no_header_failure Hok fuel 0 0 e H).
  - destruct fuel as [|fuel]; [intros []|]. cbn [search_loop].
    destruct (work_on <? heights 0)%Z; [intros [H|[]]; discriminate|].
    change HASHES_PER_BATCH with (S 999). fold batch. rewrite nonce_batch_S, E0.
    simpl. intros [H|[]]. rewrite H. reflexivity.
Qed.

(** A run that ends on a new block has hashed whole batches only: [j] batches
    of [HASHES_PER_BATCH] consecutive nonces from 1, no solution, and the
    restart follows the [j]-th check, the first one to see a height above
    [work_on]. *)
Lemma search_restart_after_whole_batches (fuel : nat) (pre post : list event) :
  search sha256 job extranonce2 mrh target heights work_on fuel = pre ++ Restarted :: post ->
  post = [] /\ exists j, j < fuel /\ pre = map Hashed (nonce_run 0 (j * HASHES_PER_BATCH))
                         /\ (work_on < heights j)%Z
                         /\ (forall i, i < j -> (heights i <= work_on)%Z).
Proof.
  unfold search. intros H.
  destruct (loop_restart fuel 0 0 pre post H) as [-> [j [Hj [Hpre [Hlt Hle]]]]].
  split; [reflexivity|]. exists j. split; [exact Hj|]. split; [exact Hpre|].
  split; [exact Hlt | intros i Hi; apply Hle; lia].
Qed.

(** When no nonce meets the target, headers build and no check sees a new
    block, [fuel] checks hash exactly [fuel * HASHES_PER_BATCH] nonces,
    [1, 2, ...] in order, and nothing else happens. *)
Lemma search_without_events (fuel : nat) :
  (exists h, header 1 = Ok h) ->
  (forall n, nonce_meets sha256 job mrh target n = false) ->
  (forall i, i < fuel -> (heights i <= work_on)%Z) ->
  search sha256 job extranonce2 mrh target heights work_on fuel
  = map Hashed (nonce_run 0 (fuel * HASHES_PER_BATCH)).
Proof.
  intros [h1 H1] Hmiss Hh.
  assert (Hok : forall n, exists h, header n = Ok h).
  { intros n. destruct (header n) as [h|en] eqn:En; [exists h; reflexivity|].
    unfold header in En, H1.
    apply (create_block_header_error_nonce_independent _ _ _ _ _ n 1) in En.
    rewrite H1 in En. discriminate. }
  unfold search. apply (loop_no_event Hok Hmiss fuel 0 0).
  intros i' Hi'. apply Hh. lia.
Qed.

End SearchRuns.

(** ** Lenient merkle branches *)

Lemma decode_job_merkle_branch (params : Json.Value) (j : MiningJob) :
  decode_job params = Ok j ->
  merkle_branch j = map (fun v => unwrap_or (Json.as_str v) [])
                        (unwrap_or (Json.as_array (Json.idx params 4)) []).
Proof.
  unfold decode_job, field_str.
  destruct (length (unwrap_or (Json.as_array params) []) <? 9); [discriminate|].
  destruct (Json.as_str (Json.idx params 0)); [|discriminate].
  destruct (Json.as_str (Json.idx params 1)); [|discriminate].
  destruct (Json.as_str (Json.idx params 2)); [|discriminate].
  destruct (Json.as_str (Json.idx params 3)); [|discriminate].
  destruct (Json.as_str (Json.idx params 5)); [|discriminate].
  destruct (Json.as_str (Json.idx params 6)); [|discriminate].
  destruct (Json.as_str (Json.idx params 7)); [|discriminate].
  intros H. injection H as <-. reflexivity.
Qed.

Lemma merkle_fold_empty_branches (sha256 : list Byte.byte -> list Byte.byte)
  (n : nat) (acc : list Byte.byte) :
  merkle_fold sha256 acc (repeat [] n) = Ok (Nat.iter n (double_sha256 sha256) acc).
Proof.
  revert acc. induction n as [|n IH]; intros acc; [reflexivity|].
  cbn [repeat merkle_fold]. change (hex_decode []) with (@Ok _ hex_error (@nil Byte.byte)).
  cbv iota. rewrite app_nil_r, IH, Nat.iter_succ_r. reflexivity.
Qed.

(** A [merkle_branch] array whose entries are not strings is not rejected:
    [v.as_str().unwrap_or("")] turns each entry into an empty branch, and the
    merkle root is the coinbase hash double-hashed once per entry. *)
Lemma decode_job_non_string_branches (sha256 : list Byte.byte -> list Byte.byte)
  (params : Json.Value) (j : MiningJob) (vs : list Json.Value) (cb : list Byte.byte) :
  decode_job params = Ok j ->
  Json.as_array (Json.idx params 4) = Some vs ->
  Forall (fun v => Json.as_str v = None) vs ->
  merkle_root_hex sha256 cb (merkle_branch j)
  = Ok (reverse_hex_bytes (hex_encode (Nat.iter (length vs) (double_sha256 sha256) cb))).
Proof.
  intros Hj Hvs Hns. rewrite (decode_job_merkle_branch params j Hj), Hvs. cbn [unwrap_or].
  replace (map (fun v => unwrap_or (Json.as_str v) []) vs) with (repeat (@nil ascii) (length vs)).
  - unfold merkle_root_hex. rewrite merkle_fold_empty_branches. reflexivity.
  - clear Hvs. induction Hns as [|v vs Hv _ IH]; [reflexivity|].
    cbn [map repeat length]. rewrite Hv, <- IH. reflexivity.
Qed.

(** ** The height watcher on malformed responses *)

(** A response without a numeric ["height"] reads as height 0
    ([unwrap_or(0)]), which never exceeds the stored height: the watcher
    leaves the configuration as it is. *)
Lemma listener_ignores_missing_height (config : MiningConfig) (data : Json.Value) :
  (0 <= current_height config)%Z ->
  Json.as_u64 (Json.key data (lit "height")) = None ->
  listener_step config (get_current_block_height (Ok data)) = config.
Proof.
  intros H0 Hn. unfold listener_step, get_current_block_height. rewrite Hn. cbn [unwrap_or].
  replace (current_height config <? 0)%Z with false by (symmetry; apply Z.ltb_ge; lia).
  reflexivity.
Qed.

(** ** Address validation *)

Lemma ascii_address_chars_base58 :
  forallb (fun c => Bool.eqb (ascii_address_char_ok c) (existsb (Nat.eqb c) base58_alphabet))
          (seq 0 128) = true.
Proof. vm_compute. reflexivity. Qed.

Lemma base58_ascii (c : nat) : In c base58_alphabet -> c < 128.
Proof.
  intros H. assert (A : forallb (fun x => x <? 128) base58_alphabet = true) by reflexivity.
  rewrite forallb_forall in A. apply Nat.ltb_lt, A, H.
Qed.

Lemma address_char_ok_iff (ua : nat -> bool) (c : nat) :
  address_char_ok ua c = true <-> In c base58_alphabet \/ (127 < c /\ ua c = true).
Proof.
  destruct (Nat.ltb_spec c 128) as [Hc|Hc].
  - assert (E : address_char_ok ua c = ascii_address_char_ok c).
    { unfold address_char_ok, is_alphanumeric, ascii_address_char_ok.
      replace (127 <? c) with false by (symmetry; apply Nat.ltb_ge; lia).
      rewrite Bool.andb_false_l, Bool.orb_false_r. reflexivity. }
    rewrite E.
    pose proof ascii_address_chars_base58 as A. rewrite forallb_forall in A.
    specialize (A c ltac:(apply in_seq; lia)). apply Bool.eqb_prop in A. rewrite A.
    rewrite existsb_exists. split.
    + intros [x [Hx Ex]]. apply Nat.eqb_eq in Ex. subst x. left. exact Hx.
    + intros [H|[H _]]; [exists c; split; [exact H | apply Nat.eqb_refl] | lia].
  - unfold address_char_ok, is_alphanumeric.
    replace (97 <=? c) with true by (symmetry; apply Nat.leb_le; lia).
    replace (c <=? 122) with false by (symmetry; apply Nat.leb_gt; lia).
    replace (c <=? 90) with false by (symmetry; apply Nat.leb_gt; lia).
    replace (c <=? 57) with false by (symmetry; apply Nat.leb_gt; lia).
    replace (127 <? c) with true by (symmetry; apply Nat.ltb_lt; lia).
    replace (c =? 48) with false by (symmetry; apply Nat.eqb_neq; lia).
    replace (c =? 79) with false by (symmetry; apply Nat.eqb_neq; lia).
    replace (c =? 73) with false by (symmetry; apply Nat.eqb_neq; lia).
    replace (c =? 108) with false by (symmetry; apply Nat.eqb_neq; lia).
    rewrite !Bool.andb_false_r, (Bool.andb_true_l (ua c)), !Bool.orb_false_l,
      !Bool.andb_true_r.
    split.
    + intros H. right. split; [lia | exact H].
    + intros [H|[_ H]]; [apply base58_ascii in H; lia | exact H].
Qed.

(** [validate_bitcoin_address] accepts exactly the strings of 26 to 35 UTF-8
    bytes whose characters are Base58 digits or non-ASCII alphanumerics:
    the bound counts bytes, not characters, and the character test is not
    limited to ASCII. *)
Lemma validate_bitcoin_address_iff (ua : nat -> bool) (address : list nat) :
  validate_bitcoin_address ua address = true
  <-> 26 <= str_len address <= 35
      /\ Forall (fun c => In c base58_alphabet \/ (127 < c /\ ua c = true)) address.
Proof.
  unfold validate_bitcoin_address.
  destruct (str_len address <? 26) eqn:E1; [apply Nat.ltb_lt in E1|apply Nat.ltb_ge in E1].
  - split; [discriminate | intros [H _]; lia].
  - destruct (35 <? str_len address) eqn:E2; [apply Nat.ltb_lt in E2|apply Nat.ltb_ge in E2];
      cbn [orb].
    + split; [discriminate | intros [H _]; lia].
    + rewrite forallb_forall, Forall_forall. split.
      * intros H. split; [lia|]. intros c Hc. apply address_char_ok_iff, H, Hc.
      * intros [_ H] c Hc. apply address_char_ok_iff, H, Hc.
Qed.

(** On ASCII input the byte length is the character count, and the check is
    exactly "26 to 35 Base58 digits". *)
Lemma validate_bitcoin_address_ascii (ua : nat -> bool) (address : list nat) :
  Forall (fun c => c < 128) address ->
  validate_bitcoin_address ua address = true
  <-> 26 <= length address <= 35 /\ Forall (fun c => In c base58_alphabet) address.
Proof.
  intros Ha.
  assert (L : str_len address = length address).
  { unfold str_len. induction Ha as [|c s Hc _ IH]; [reflexivity|].
    cbn [map length]. change (list_sum (utf8_len c :: map utf8_len s))
      with (utf8_len c + list_sum (map utf8_len s)). rewrite IH. unfold utf8_len.
    replace (c <? 128) with true by (symmetry; apply Nat.ltb_lt; exact Hc). reflexivity. }
  rewrite validate_bitcoin_address_iff, L. rewrite !Forall_forall in *. split.
  - intros [Hl H]. split; [exact Hl|]. intros c Hc.
    destruct (H c Hc) as [H'|[H' _]]; [exact H'|]. specialize (Ha c Hc). lia.
  - intros [Hl H]. split; [exact Hl|]. intros c Hc. left. apply H, Hc.
Qed.

(** ** Configuration loading *)

Lemma digit_val_char (c : ascii) (d : nat) :
  digit_val c = Some d -> d < 10 /\ c = ascii_of_nat (48 + d).
Proof.
  unfold digit_val. destruct ((48 <=? nat_of_ascii c) && (nat_of_ascii c <=? 57)) eqn:E;
    [|discriminate].
  apply andb_prop in E. destruct E as [E1 E2]. apply Nat.leb_le in E1, E2.
  intros H. injection H as <-. split; [lia|].
  replace (48 + (nat_of_ascii c - 48)) with (nat_of_ascii c) by lia.
  symmetry. apply ascii_nat_embedding.
Qed.

Lemma parse_digits_mono (max acc : Z) (s : str) (v : Z) :
  (0 <= acc)%Z -> parse_digits max acc s = Some v ->
  (acc <= v)%Z /\ (s <> [] -> (10 * acc <= v)%Z).
Proof.
  revert acc. induction s as [|c s IH]; intros acc Ha H.
  - injection H as <-. split; [lia | intros N; congruence].
  - cbn [parse_digits] in H. destruct (digit_val c) as [d|]; [|discriminate].
    destruct (acc * 10 + Z.of_nat d <=? max)%Z; [|discriminate].
    destruct (IH (acc * 10 + Z.of_nat d)%Z ltac:(lia) H) as [H1 _].
    split; [lia | intros _; lia].
Qed.

Lemma parse_digits_zeros (max : Z) (k : nat) (r : str) :
  (0 <= max)%Z -> parse_digits max 0 (repeat "0"%char k ++ r) = parse_digits max 0 r.
Proof.
  intros Hm. induction k as [|k IH]; [reflexivity|].
  cbn [repeat app parse_digits]. change (digit_val "0"%char) with (Some 0).
  simpl. destruct (0 <=? max)%Z eqn:E; [exact IH|].
  apply Z.leb_gt in E. lia.
Qed.

Lemma parse_digits_one (max : Z) (s : str) :
  (1 <= max)%Z ->
  parse_digits max 0 s = Some 1%Z <-> exists k, s = repeat "0"%char k ++ ["1"%char].
Proof.
  intros Hm. split.
  - induction s as [|c s IH]; [discriminate|]. intros H.
    cbn [parse_digits] in H. destruct (digit_val c) as [d|] eqn:Ed; [|discriminate].
    destruct (digit_val_char c d Ed) as [Hd ->].
    destruct (0 * 10 + Z.of_nat d <=? max)%Z; [|discriminate].
    destruct d as [|[|d]].
    + change (0 * 10 + Z.of_nat 0)%Z with 0%Z in H.
      destruct (IH H) as [k ->]. exists (S k). reflexivity.
    + destruct s as [|c' s]; [exists 0; reflexivity|].
      apply parse_digits_mono in H; [|lia]. destruct H as [_ H2].
      specialize (H2 ltac:(discriminate)). lia.
    + apply parse_digits_mono in H; [|lia]. destruct H as [H1 _]. lia.
  - intros [k ->]. rewrite parse_digits_zeros by lia. cbn [parse_digits].
    simpl. destruct (1 <=? max)%Z eqn:E; [reflexivity|].
    apply Z.leb_gt in E. lia.
Qed.

Lemma zeros_one_head (k : nat) (c : ascii) (r : str) :
  c :: r = repeat "0"%char k ++ ["1"%char] -> c = "0"%char \/ c = "1"%char.
Proof. destruct k; intros H; injection H as H _; auto. Qed.

(** [QUIET_MODE] parses to 1 exactly when it is a decimal 1, with any number of
    leading zeros and at most one leading ['+']. *)
Lemma parse_u32_one (s : str) :
  parse_u32 s = Some 1%Z
  <-> exists k, s = repeat "0"%char k ++ ["1"%char] \/ s = "+"%char :: repeat "0"%char k ++ ["1"%char].
Proof.
  unfold parse_u32, parse_uint. destruct s as [|c r].
  - split; [discriminate|]. intros [k [H|H]]; [destruct k|]; discriminate.
  - destruct (Ascii.eqb c "+"%char) eqn:Ep.
    + apply Ascii.eqb_eq in Ep. subst c. destruct r as [|c' r'].
      * split; [discriminate|]. intros [k [H|H]].
        -- destruct k; discriminate.
        -- injection H as H. destruct k; discriminate.
      * rewrite parse_digits_one by lia. split.
        -- intros [k Hk]. exists k. right. rewrite Hk. reflexivity.
        -- intros [k [H|H]].
           ++ destruct (zeros_one_head k _ _ H) as [E|E]; discriminate.
           ++ injection H as H. exists k. exact H.
    + apply Ascii.eqb_neq in Ep. rewrite parse_digits_one by lia. split.
      * intros [k Hk]. exists k. left. exact Hk.
      * intros [k [H|H]]; [exists k; exact H|]. injection H as -> _. congruence.
Qed.

(** With [QUIET_MODE] set, quiet mode is on exactly when its value is a decimal
    1 (leading zeros and one ['+'] allowed), or when it does not parse as a
    [u32] at all and the file enables it: a value such as ["true"] falls back
    to the file, a value such as ["0"] or ["2"] turns quiet mode off whatever
    the file says. *)
Lemma load_config_quiet_env (env : string -> option str) (ini : option IniFile) (s : str) :
  env "QUIET_MODE"%string = Some s ->
  (snd (fst (load_config env ini)) = true
   <-> (exists k, s = repeat "0"%char k ++ ["1"%char]
                  \/ s = "+"%char :: repeat "0"%char k ++ ["1"%char])
       \/ (parse_u32 s = None /\ file_quiet_mode ini = true)).
Proof.
  intros He. rewrite <- parse_u32_one.
  assert (Q : snd (fst (load_config env ini))
              = match parse_u32 s with Some v => (v =? 1)%Z | None => file_quiet_mode ini end).
  { unfold load_config, file_quiet_mode. rewrite He. cbn [option_bind option_map].
    destruct (parse_u32 s); destruct ini as [f|]; cbn; try reflexivity;
      destruct (ini_getuint f "miner" "quiet_mode") as [[v|]|]; reflexivity. }
  rewrite Q. destruct (parse_u32 s) as [v|].
  - rewrite Z.eqb_eq. split.
    + intros ->. left. reflexivity.
    + intros [H|[H _]]; [injection H as ->; reflexivity | discriminate].
  - split.
    + intros H. right. split; [reflexivity | exact H].
    + intros [H|[_ H]]; [discriminate | exact H].
Qed.

(** Every Telegram configuration [load_config] returns passes
    [is_configured], so [send_telegram_message]'s early return never fires
    for it; a token or user id set to the empty string in the environment
    disables Telegram whatever the file holds. *)
Lemma load_config_telegram (env : string -> option str) (ini : option IniFile) :
  (forall t, snd (load_config env ini) = Some t -> is_configured t = true)
  /\ (env "TELEGRAM_BOT_TOKEN"%string = Some [] -> snd (load_config env ini) = None)
  /\ (env "TELEGRAM_USER_ID"%string = Some [] -> snd (load_config env ini) = None).
Proof.
  unfold load_config.
  destruct (match ini with
            | None => ([], false, [], [])
            | Some config =>
                (unwrap_or (ini_get config "miner" "wallet_address") [],
                 match ini_getuint config "miner" "quiet_mode" with
                 | Ok (Some value) => (value =? 1)%Z
                 | _ => false
                 end,
                 unwrap_or (ini_get config "telegram" "bot_token") [],
                 unwrap_or (ini_get config "telegram" "user_id") [])
            end) as [[[a q] tok] uid].
  split; [|split].
  - intros t. cbn [snd].
    destruct (negb (is_empty (unwrap_or (env "TELEGRAM_BOT_TOKEN"%string) tok))
              && negb (is_empty (unwrap_or (env "TELEGRAM_USER_ID"%string) uid))) eqn:E;
      [|discriminate].
    intros H. injection H as <-. exact E.
  - intros H. rewrite H. reflexivity.
  - intros H. rewrite H. cbn [snd unwrap_or is_empty negb]. rewrite Bool.andb_false_r.
    reflexivity.
Qed.

(** * Further instances at concrete inputs *)

Lemma hash_meets_target_numeric_witness :
  hash_meets_target (repeat Byte.x00 31 ++ [Byte.x01]) (repeat Byte.xff 32)
  = (be_value (repeat Byte.x00 31 ++ [Byte.x01]) <=? be_value (repeat Byte.xff 32))%Z.
Proof. apply hash_meets_target_numeric; reflexivity. Defined.

Lemma calculate_target_value_witness :
  exists target,
    calculate_target (lit "1d00ffff") = Ok target /\ length target = 32 /\
    be_value target
    = (be_value [Byte.x00; Byte.xff; Byte.xff] * 256 ^ (Z.of_nat (Byte.to_nat Byte.x1d) - 3))%Z /\
    (forall hash, length hash = 32 ->
       hash_meets_target hash target = true
       <-> (be_value hash
            <= be_value [Byte.x00; Byte.xff; Byte.xff]
               * 256 ^ (Z.of_nat (Byte.to_nat Byte.x1d) - 3))%Z).
Proof.
  apply (calculate_target_value (lit "1d00ffff") Byte.x1d Byte.x00 Byte.xff Byte.xff).
  - reflexivity.
  - cbn. lia.
Defined.

Lemma nonce_hex_decode_witness :
  exists bs, hex_decode (nonce_hex 305419896) = Ok bs /\ length bs = 4
             /\ be_value bs = 305419896%Z.
Proof. apply nonce_hex_decode. lia. Defined.

Lemma create_block_header_nonce_suffix_witness :
  exists pre, length pre = 76 /\
    forall n, (0 <= n < 2 ^ 32)%Z ->
      exists bs, create_block_header (lit "00000001") (repeat zero_char 64) (lit "ab")
                   (lit "1d00ffff") (lit "5f5e1000") (nonce_hex n) = Ok (pre ++ bs)
                 /\ length bs = 4 /\ be_value bs = n.
Proof.
  apply (create_block_header_nonce_suffix (lit "00000001") (repeat zero_char 64) (lit "ab")
           (lit "1d00ffff") (lit "5f5e1000") [Byte.x00; Byte.x00; Byte.x00; Byte.x01]
           (repeat Byte.x00 32) [Byte.xab] [Byte.x1d; Byte.x00; Byte.xff; Byte.xff]
           [Byte.x5f; Byte.x5e; Byte.x10; Byte.x00]);
    try (vm_compute; reflexivity); apply Nat.leb_le; reflexivity.
Defined.

Lemma reverse_hex_bytes_involutive_witness :
  reverse_hex_bytes (reverse_hex_bytes (lit "0a0b0c")) = lit "0a0b0c".
Proof.
  apply reverse_hex_bytes_involutive; [|reflexivity].
  repeat constructor; apply Nat.ltb_lt; reflexivity.
Defined.

Lemma reverse_hex_bytes_drops_odd_char_witness :
  reverse_hex_bytes (lit "0a0b" ++ ["c"%char]) = reverse_hex_bytes (lit "0a0b").
Proof.
  apply reverse_hex_bytes_drops_odd_char; [|reflexivity].
  repeat constructor; apply Nat.ltb_lt; reflexivity.
Defined.

Lemma create_block_header_error_nonce_independent_witness :
  create_block_header (lit "zz") [] [] [] [] (nonce_hex 7)
  = Err (InvalidBlockHeaderFormat (InvalidHexCharacter "z"%char)).
Proof.
  apply (create_block_header_error_nonce_independent (lit "zz") [] [] [] [] 1 7).
  vm_compute. reflexivity.
Defined.

Lemma search_header_failure_only_first_witness :
  search (fun _ => repeat Byte.x00 32) example_job [] (lit "zz") (repeat Byte.x00 32)
    (fun _ => 0%Z) 0%Z 3
  = [HeaderFailed (InvalidBlockHeaderFormat (InvalidHexCharacter "z"%char))].
Proof.
  apply search_header_failure_only_first.
  vm_compute. left. reflexivity.
Defined.

Lemma search_restart_after_whole_batches_witness :
  @nil event = [] /\
  exists j, j < 3
    /\ map Hashed (nonce_run 0 1000) = map Hashed (nonce_run 0 (j * HASHES_PER_BATCH))
    /\ (0 < (fun i : nat => if Nat.eqb i 0 then 0 else 1) j)%Z
    /\ (forall i, i < j -> ((fun i : nat => if Nat.eqb i 0 then 0 else 1) i <= 0)%Z).
Proof.
  apply (search_restart_after_whole_batches (fun _ => repeat Byte.xff 32) example_job []
           (lit "ab") (repeat Byte.x00 32) (fun i : nat => if Nat.eqb i 0 then 0%Z else 1%Z) 0%Z 3).
  vm_compute. reflexivity.
Defined.

Lemma search_without_events_witness :
  search (fun _ => repeat Byte.xff 32) example_job [] (lit "ab") (repeat Byte.x00 32)
    (fun _ => 0%Z) 0%Z 2
  = map Hashed (nonce_run 0 (2 * HASHES_PER_BATCH)).
Proof.
  apply search_without_events.
  - eexists. vm_compute. reflexivity.
  - intros n. unfold nonce_meets.
    destruct (create_block_header (version example_job) (prevhash example_job) (lit "ab")
                (nbits example_job) (ntime example_job) (nonce_hex n)); reflexivity.
  - intros i _. lia.
Defined.

Lemma decode_job_non_string_branches_witness :
  merkle_root_hex (fun l => firstn 32 (l ++ repeat Byte.x00 32)) [Byte.x01]
    (merkle_branch {| job_id := lit "1"; prevhash := repeat zero_char 64; coinb1 := lit "01";
                      coinb2 := lit "02"; merkle_branch := [[]; []];
                      version := lit "00000001"; nbits := lit "1d00ffff";
                      ntime := lit "5f5e1000"; clean_jobs := false |})
  = Ok (reverse_hex_bytes (hex_encode
          (Nat.iter (length [Json.Number (Json.PosInt 7); Json.Null])
             (double_sha256 (fun l => firstn 32 (l ++ repeat Byte.x00 32))) [Byte.x01]))).
Proof.
  apply (decode_job_non_string_branches _
           (Json.Array [Json.String (lit "1"); Json.String (repeat zero_char 64);
                        Json.String (lit "01"); Json.String (lit "02");
                        Json.Array [Json.Number (Json.PosInt 7); Json.Null];
                        Json.String (lit "00000001"); Json.String (lit "1d00ffff");
                        Json.String (lit "5f5e1000"); Json.Bool false])).
  - vm_compute. reflexivity.
  - reflexivity.
  - repeat constructor.
Defined.

Lemma listener_ignores_missing_height_witness :
  listener_step {| address := lit "x"; current_height := 5%Z; quiet_mode := false |}
    (get_current_block_height
       (Ok (Json.Object [(lit "height", Json.String (lit "812345"))])))
  = {| address := lit "x"; current_height := 5%Z; quiet_mode := false |}.
Proof. apply listener_ignores_missing_height; [cbn; lia | reflexivity]. Defined.

Lemma validate_bitcoin_address_ascii_witness :
  validate_bitcoin_address (fun _ => false)
    (map nat_of_ascii (lit "1BoatSLRHtKNngkdXEeobR76b53LETtpyT")) = true
  <-> 26 <= length (map nat_of_ascii (lit "1BoatSLRHtKNngkdXEeobR76b53LETtpyT")) <= 35
      /\ Forall (fun c => In c base58_alphabet)
                (map nat_of_ascii (lit "1BoatSLRHtKNngkdXEeobR76b53LETtpyT")).
Proof.
  apply validate_bitcoin_address_ascii.
  assert (H : forallb (fun c => c <? 128)
                (map nat_of_ascii (lit "1BoatSLRHtKNngkdXEeobR76b53LETtpyT")) = true)
    by reflexivity.
  rewrite forallb_forall in H. apply Forall_forall. intros c Hc. apply Nat.ltb_lt, H, Hc.
Defined.

Lemma load_config_quiet_env_witness :
  snd (fst (load_config (fun k => if String.eqb k "QUIET_MODE" then Some (lit "+001") else None)
                        None)) = true
  <-> (exists k, lit "+001" = repeat "0"%char k ++ ["1"%char]
                 \/ lit "+001" = "+"%char :: repeat "0"%char k ++ ["1"%char])
      \/ (parse_u32 (lit "+001") = None /\ file_quiet_mode None = true).
Proof. apply load_config_quiet_env. reflexivity. Defined.
